(** * T-tetromino puzzle: placement, validation and undo/redo history

    Shallow embedding of the game logic found in

    - [src/src/App.tsx], which holds two copies of the 8x8 component
      (lines 1-253 and lines 253-477) that differ in the offset table of
      rotations 0 and 180;
    - [src/unnamed/part_000], the [PuzzleGame] component with a [size]
      property (used at 8 and at 6);
    - [src/unnamed/part_001], the single-rotation 8x8 component with
      hand-written bounds checks.

    Row and column numbers are JavaScript numbers that only ever hold
    integers here; they are modelled as [Z].  An array is a [list]; reading
    it at an index outside its range yields [undefined] ([None]), and
    indexing [undefined] throws a [TypeError] ([Throw]).  React state is
    made explicit: every handler is a function from the state it closes
    over to the state set by its [set...] calls. *)

From Stdlib Require Import ZArith Lia String.
From stdpp Require Import base list.

Open Scope Z_scope.

(** ** Data model *)

(** [type Cell = null | 'T'] *)
Inductive Cell : Type := Empty | T.

(** [type Grid = Cell[][]] *)
Abbreviation Grid := (list (list Cell)).

(** [type Rotation = 0 | 90 | 180 | 270] *)
Inductive Rotation : Type := R0 | R90 | R180 | R270.

#[global] Instance Cell_eq_dec : EqDecision Cell.
Proof. solve_decision. Defined.

#[global] Instance Rotation_eq_dec : EqDecision Rotation.
Proof. solve_decision. Defined.

(** Result of running a piece of code: a value, or a thrown [TypeError]. *)
Inductive outcome (A : Type) : Type :=
| Ok (a : A)
| Throw.
Arguments Ok {A} a.
Arguments Throw {A}.

(** ** Arrays *)

(** [l[i]] for an integer [i]: [None] stands for [undefined]. *)
Definition index {A : Type} (l : list A) (i : Z) : option A :=
  if i <? 0 then None else l !! Z.to_nat i.

(** [l.length] *)
Definition len {A : Type} (l : list A) : Z := Z.of_nat (length l).

(** [l.slice(0, e)]: a negative [e] counts from the end of the array. *)
Definition slice0 {A : Type} (l : list A) (e : Z) : list A :=
  if e <? 0 then take (Z.to_nat (len l + e)) l else take (Z.to_nat e) l.

(** [row[c] = v].  A negative [c] stores under a property key and leaves
    the elements alone; a [c] past the end extends the array, the holes
    in between read as [undefined], which the code treats like [null]:
    they are filled with [Empty]. *)
Definition assign (row : list Cell) (c : Z) (v : Cell) : list Cell :=
  if c <? 0 then row
  else if c <? len row then <[Z.to_nat c := v]> row
  else row ++ replicate (Z.to_nat c - length row)%nat Empty ++ [v].

(** [g[r][c] = 'T'], which throws when [g[r]] is [undefined]. *)
Definition setCell (g : Grid) (r c : Z) : outcome Grid :=
  match index g r with
  | None => Throw
  | Some row => Ok (<[Z.to_nat r := assign row c T]> g)
  end.

(** The value of [g[r][c]] when evaluating it does not throw. *)
Definition cellAt (g : Grid) (r c : Z) : option Cell :=
  match index g r with
  | None => None
  | Some row => index row c
  end.

(** [!x] for [x] a cell or [undefined]. *)
Definition isFalsy (x : option Cell) : bool :=
  match x with
  | Some T => false
  | Some Empty | None => true
  end.

(** [Array(n).fill(null).map(() => Array(n).fill(null))] *)
Definition emptyGrid (n : Z) : Grid :=
  replicate (Z.to_nat n) (replicate (Z.to_nat n) Empty).

(** Sequencing of statements that may throw. *)
Definition andThen {A B : Type} (m : outcome A) (f : A -> outcome B) : outcome B :=
  match m with
  | Ok a => f a
  | Throw => Throw
  end.

Notation "x <-- m ;; k" := (andThen m (fun x => k))
  (at level 100, m at next level, right associativity).

(** ** Evaluation that records the grid reads

    A computation yields the list of positions [(r, c)] at which
    [grid[r][c]] was evaluated, in order, and its outcome. *)

Definition Traced (A : Type) : Type := list (Z * Z) * outcome A.

Definition ret {A : Type} (a : A) : Traced A := ([], Ok a).

Definition bind {A B : Type} (m : Traced A) (f : A -> Traced B) : Traced B :=
  match m with
  | (t, Ok a) => let '(t', r) := f a in (t ++ t', r)
  | (t, Throw) => (t, Throw)
  end.

Notation "x <- m ;; k" := (bind m (fun x => k))
  (at level 100, m at next level, right associativity).

Definition reads {A : Type} (m : Traced A) : list (Z * Z) := fst m.
Definition result {A : Type} (m : Traced A) : outcome A := snd m.

(** [grid[r][c]] *)
Definition readCell (g : Grid) (r c : Z) : Traced (option Cell) :=
  ([(r, c)],
   match index g r with
   | None => Throw
   | Some row => Ok (index row c)
   end).

(** [!grid[r][c]] *)
Definition notCell (g : Grid) (r c : Z) : Traced bool :=
  x <- readCell g r c ;; ret (isFalsy x).

(** [a && b] on booleans: [b] is evaluated only when [a] is true. *)
Definition andAlso (a b : Traced bool) : Traced bool :=
  x <- a ;; if x then b else ret false.

Notation "a &&& b" := (andAlso a b) (at level 40, left associativity).

(** [cells.every(p)]: stops at the first cell on which [p] is false. *)
Fixpoint every (p : Z * Z -> Traced bool) (cells : list (Z * Z)) : Traced bool :=
  match cells with
  | [] => ret true
  | x :: rest => b <- p x ;; if b then every p rest else ret false
  end.

(** [cells.forEach(([r, c]) => { g[r][c] = 'T'; })] *)
Fixpoint forEachSet (g : Grid) (cells : list (Z * Z)) : outcome Grid :=
  match cells with
  | [] => Ok g
  | (r, c) :: rest =>
      match setCell g r c with
      | Ok g' => forEachSet g' rest
      | Throw => Throw
      end
  end.

(** ** Well-formed boards and the properties stated about them *)

(** A board is a square matrix of side [n]. *)
Definition wfGrid (n : Z) (g : Grid) : Prop :=
  len g = n /\ Forall (fun row => len row = n) g.

(** Cell [(r, c)] lies on the board of side [n] and is [Empty] in [g]. *)
Definition fits (n : Z) (g : Grid) (rc : Z * Z) : Prop :=
  0 <= rc.1 < n /\ 0 <= rc.2 < n /\ cellAt g rc.1 rc.2 = Some Empty.

(** The positions of the board that hold ['T'], row by row. *)
Definition occupiedInRow (r : Z) (row : list Cell) : list (Z * Z) :=
  omap (fun '(c, x) => if decide (x = T) then Some (r, Z.of_nat c) else None)
       (imap pair row).

Definition occupied (g : Grid) : list (Z * Z) :=
  concat (imap (fun r row => occupiedInRow (Z.of_nat r) row) g).

(** Cell [rc] lies on the board of side [n]. *)
Definition onBoard (n : Z) (rc : Z * Z) : Prop :=
  0 <= rc.1 < n /\ 0 <= rc.2 < n.

(** A shape: four cells, no two of them the same. *)
Definition fourDistinct (cells : list (Z * Z)) : Prop :=
  length cells = 4%nat /\ NoDup cells.

(** ** The component with a rotation control

    [PuzzleGame] of [src/unnamed/part_000]; the two components of
    [src/src/App.tsx] are the same text with [size] replaced by [8].
    The offset table is a parameter here because the copies disagree
    on it. *)

Module Game.

Record State : Type := mkState {
  grid : Grid;
  history : list Grid;
  currentStep : Z;
  currentRotation : Rotation
}.

(** The cursor points at the snapshot on display. *)
Definition cursorInv (s : State) : Prop :=
  index (history s) (currentStep s) = Some (grid s).

(** Every board of the state is a square of side [size]. *)
Definition boardsInv (size : Z) (s : State) : Prop :=
  wfGrid size (grid s) /\ Forall (wfGrid size) (history s).

Section WithSizeAndTable.

Variable size : Z.
Variable getTetrominoCells : Z -> Z -> Rotation -> list (Z * Z).

Definition init : State :=
  {| grid := emptyGrid size;
     history := [emptyGrid size];
     currentStep := 0;
     currentRotation := R0 |}.

(** [r >= 0 && r < size && c >= 0 && c < size && !grid[r][c]] *)
Definition cellFree (g : Grid) (rc : Z * Z) : Traced bool :=
  let '(r, c) := rc in
  ret (0 <=? r) &&& ret (r <? size) &&& ret (0 <=? c) &&& ret (c <? size)
    &&& notCell g r c.

Definition isValidPlacement (g : Grid) (row col : Z) (rotation : Rotation)
  : Traced bool :=
  let cells := getTetrominoCells row col rotation in
  every (cellFree g) cells.

Definition placeTetromino (s : State) (row col : Z) : outcome State :=
  match result (isValidPlacement (grid s) row col (currentRotation s)) with
  | Throw => Throw
  | Ok false => Ok s
  | Ok true =>
      let cells := getTetrominoCells row col (currentRotation s) in
      match forEachSet (grid s) cells with
      | Throw => Throw
      | Ok newGrid =>
          let newHistory := slice0 (history s) (currentStep s + 1) ++ [newGrid] in
          Ok {| grid := newGrid;
                history := newHistory;
                currentStep := currentStep s + 1;
                currentRotation := currentRotation s |}
      end
  end.

(** [setGrid(history[i])] with [history[i]] undefined leaves the
    component without a grid, and the render that follows throws on
    [grid.map]: this is the [Throw] of [undo] and [redo]. *)
Definition undo (s : State) : outcome State :=
  if 0 <? currentStep s then
    match index (history s) (currentStep s - 1) with
    | Some g =>
        Ok {| grid := g;
              history := history s;
              currentStep := currentStep s - 1;
              currentRotation := currentRotation s |}
    | None => Throw
    end
  else Ok s.

Definition redo (s : State) : outcome State :=
  if currentStep s <? len (history s) - 1 then
    match index (history s) (currentStep s + 1) with
    | Some g =>
        Ok {| grid := g;
              history := history s;
              currentStep := currentStep s + 1;
              currentRotation := currentRotation s |}
    | None => Throw
    end
  else Ok s.

Definition reset (s : State) : State :=
  let emptyGrid := emptyGrid size in
  {| grid := emptyGrid;
     history := [emptyGrid];
     currentStep := 0;
     currentRotation := currentRotation s |}.

Definition rotateShape (s : State) (rotation : Rotation) : State :=
  {| grid := grid s;
     history := history s;
     currentStep := currentStep s;
     currentRotation := rotation |}.

(** The events the rendered controls can raise. *)
Inductive Op : Type :=
| Place (row col : Z)
| Undo
| Redo
| Reset
| Rotate (rotation : Rotation).

Definition step (s : State) (op : Op) : outcome State :=
  match op with
  | Place row col => placeTetromino s row col
  | Undo => undo s
  | Redo => redo s
  | Reset => Ok (reset s)
  | Rotate rotation => Ok (rotateShape s rotation)
  end.

Inductive reachable : State -> Prop :=
| reach_init : reachable init
| reach_step s op s' : reachable s -> step s op = Ok s' -> reachable s'.

End WithSizeAndTable.

End Game.

(** ** The offset tables *)

(** First component of [src/src/App.tsx] (lines 113-144). *)
Module App.

Definition getTetrominoCells (row col : Z) (rotation : Rotation) : list (Z * Z) :=
  match rotation with
  | R0 => [(row + 1, col); (row, col); (row, col - 1); (row, col + 1)]
  | R90 => [(row, col); (row - 1, col); (row + 1, col); (row, col - 1)]
  | R180 => [(row, col); (row + 1, col); (row + 1, col - 1); (row + 1, col + 1)]
  | R270 => [(row, col); (row - 1, col); (row + 1, col); (row, col + 1)]
  end.

Definition init := Game.init 8.
Definition isValidPlacement := Game.isValidPlacement 8 getTetrominoCells.
Definition placeTetromino := Game.placeTetromino 8 getTetrominoCells.
Definition reachable := Game.reachable 8 getTetrominoCells.

End App.

(** Second component of [src/src/App.tsx] (lines 338-369). *)
Module App2.

Definition getTetrominoCells (row col : Z) (rotation : Rotation) : list (Z * Z) :=
  match rotation with
  | R0 => [(row, col); (row + 1, col); (row + 1, col - 1); (row + 1, col + 1)]
  | R90 => [(row, col); (row - 1, col); (row + 1, col); (row, col - 1)]
  | R180 => [(row + 1, col); (row, col); (row, col - 1); (row, col + 1)]
  | R270 => [(row, col); (row - 1, col); (row + 1, col); (row, col + 1)]
  end.

Definition init := Game.init 8.
Definition isValidPlacement := Game.isValidPlacement 8 getTetrominoCells.
Definition placeTetromino := Game.placeTetromino 8 getTetrominoCells.
Definition reachable := Game.reachable 8 getTetrominoCells.

End App2.

(** [PuzzleGame] of [src/unnamed/part_000] (lines 142-173): the table
    of the first component of [src/src/App.tsx], with [size] a property. *)
Module PuzzleGame.

Definition getTetrominoCells (row col : Z) (rotation : Rotation) : list (Z * Z) :=
  match rotation with
  | R0 => [(row + 1, col); (row, col); (row, col - 1); (row, col + 1)]
  | R90 => [(row, col); (row - 1, col); (row + 1, col); (row, col - 1)]
  | R180 => [(row, col); (row + 1, col); (row + 1, col - 1); (row + 1, col + 1)]
  | R270 => [(row, col); (row - 1, col); (row + 1, col); (row, col + 1)]
  end.

Definition init (size : Z) := Game.init size.
Definition isValidPlacement (size : Z) := Game.isValidPlacement size getTetrominoCells.
Definition placeTetromino (size : Z) := Game.placeTetromino size getTetrominoCells.
Definition reachable (size : Z) := Game.reachable size getTetrominoCells.

End PuzzleGame.

(** ** The component without rotation

    [App] of [src/unnamed/part_001]: one fixed shape, bounds checked by
    hand. *)

Module Single.

Record State : Type := mkState {
  grid : Grid;
  history : list Grid;
  currentStep : Z
}.

(** The cursor points at the snapshot on display. *)
Definition cursorInv (s : State) : Prop :=
  index (history s) (currentStep s) = Some (grid s).

(** Every board of the state is a square of side 8. *)
Definition boardsInv (s : State) : Prop :=
  wfGrid 8 (grid s) /\ Forall (wfGrid 8) (history s).

Definition init : State :=
  {| grid := emptyGrid 8;
     history := [emptyGrid 8];
     currentStep := 0 |}.

Definition isValidPlacement (g : Grid) (row col : Z) : Traced bool :=
  if (row <? 0) || (7 <=? row) || (col <? 0) || (8 <=? col) then ret false
  else
    notCell g row col
    &&& notCell g (row + 1) col
    &&& notCell g (row + 1) (col - 1)
    &&& notCell g (row + 1) (col + 1)
    &&& ret (0 <? col)
    &&& ret (col <? 7).

(** The four cells [placeTetromino] writes, in the order of its
    assignments (lines 93-96): the shape of this component. *)
Definition tetrominoCells (row col : Z) : list (Z * Z) :=
  [(row, col); (row + 1, col); (row + 1, col - 1); (row + 1, col + 1)].

Definition placeTetromino (s : State) (row col : Z) : outcome State :=
  match result (isValidPlacement (grid s) row col) with
  | Throw => Throw
  | Ok false => Ok s
  | Ok true =>
      newGrid <-- Ok (grid s) ;;
      newGrid <-- setCell newGrid row col ;;
      newGrid <-- setCell newGrid (row + 1) col ;;
      newGrid <-- setCell newGrid (row + 1) (col - 1) ;;
      newGrid <-- setCell newGrid (row + 1) (col + 1) ;;
      let newHistory := slice0 (history s) (currentStep s + 1) ++ [newGrid] in
      Ok {| grid := newGrid;
            history := newHistory;
            currentStep := currentStep s + 1 |}
  end.

Definition undo (s : State) : outcome State :=
  if 0 <? currentStep s then
    match index (history s) (currentStep s - 1) with
    | Some g =>
        Ok {| grid := g;
              history := history s;
              currentStep := currentStep s - 1 |}
    | None => Throw
    end
  else Ok s.

Definition redo (s : State) : outcome State :=
  if currentStep s <? len (history s) - 1 then
    match index (history s) (currentStep s + 1) with
    | Some g =>
        Ok {| grid := g;
              history := history s;
              currentStep := currentStep s + 1 |}
    | None => Throw
    end
  else Ok s.

Definition reset (s : State) : State :=
  let emptyGrid := emptyGrid 8 in
  {| grid := emptyGrid;
     history := [emptyGrid];
     currentStep := 0 |}.

Inductive Op : Type :=
| Place (row col : Z)
| Undo
| Redo
| Reset.

Definition step (s : State) (op : Op) : outcome State :=
  match op with
  | Place row col => placeTetromino s row col
  | Undo => undo s
  | Redo => redo s
  | Reset => Ok (reset s)
  end.

Inductive reachable : State -> Prop :=
| reach_init : reachable init
| reach_step s op s' : reachable s -> step s op = Ok s' -> reachable s'.

End Single.

(** ** Scenarios and concrete states *)

(** The scenario for a component of side 8 with offset table [cells]:
    rotation 0 has the pattern [shape]; placing at anchor (0, 1) on the
    empty board occupies exactly the cells [occ]; placing there again is
    rejected and changes nothing; [undo] gives the empty board back and
    [redo] the board with the placement. *)
Definition scenario (cells : Z -> Z -> Rotation -> list (Z * Z))
    (shape : Z -> Z -> list (Z * Z)) (occ : list (Z * Z)) : Prop :=
  (forall r c, cells r c R0 = shape r c)
  /\ exists s1 s2,
      Game.currentRotation (Game.init 8) = R0
      /\ Game.placeTetromino 8 cells (Game.init 8) 0 1 = Ok s1
      /\ (forall rc, rc ∈ occupied (Game.grid s1) <-> rc ∈ occ)
      /\ result (Game.isValidPlacement 8 cells (Game.grid s1) 0 1
                   (Game.currentRotation s1)) = Ok false
      /\ Game.placeTetromino 8 cells s1 0 1 = Ok s1
      /\ Game.undo s1 = Ok s2
      /\ Game.grid s2 = emptyGrid 8
      /\ occupied (Game.grid s2) = []
      /\ Game.redo s2 = Ok s1.

(** The pattern and the cells of the scenario as the specification
    gives them. *)
Definition stemUp (r c : Z) : list (Z * Z) :=
  [(r, c); (r + 1, c); (r + 1, c - 1); (r + 1, c + 1)].

Definition stemUpCells : list (Z * Z) := [(0, 1); (1, 1); (1, 0); (1, 2)].

(** The pattern of rotation 0 in the first component of
    [src/src/App.tsx] and in [src/unnamed/part_000], and the cells it
    covers from anchor (0, 1). *)
Definition stemDown (r c : Z) : list (Z * Z) :=
  [(r + 1, c); (r, c); (r, c - 1); (r, c + 1)].

Definition stemDownCells : list (Z * Z) := [(1, 1); (0, 1); (0, 0); (0, 2)].

(** The state after the placement at anchor (0, 1), rotation 0, in the
    first component of [src/src/App.tsx]. *)
Definition afterFirstPlace : Game.State :=
  match App.placeTetromino App.init 0 1 with
  | Ok s => s
  | Throw => App.init
  end.

(** The same in [src/unnamed/part_001]. *)
Definition singleAfterFirstPlace : Single.State :=
  match Single.placeTetromino Single.init 0 1 with
  | Ok s => s
  | Throw => Single.init
  end.

(** The state after placing at (0, 1) and undoing, in the first
    component of [src/src/App.tsx], and in [src/unnamed/part_001]. *)
Definition afterUndo : Game.State :=
  match Game.undo afterFirstPlace with
  | Ok s => s
  | Throw => afterFirstPlace
  end.

Definition singleAfterUndo : Single.State :=
  match Single.undo singleAfterFirstPlace with
  | Ok s => s
  | Throw => singleAfterFirstPlace
  end.

(** All the grid reads of [isValidPlacement] at anchor [(row, col)] on
    [g] are at positions of the 8x8 board. *)
Definition readsOnBoard (g : Grid) (row col : Z) : Prop :=
  Forall (onBoard 8) (reads (Single.isValidPlacement g row col)).

(** ** What the components render

    The board and the Undo and Redo buttons, as every component renders
    them. *)

Module View.

(** [<Cell isOccupied={cell === 'T'}
          onClick={() => placeTetromino(rowIndex, colIndex)} />] *)
Record CellView : Type := mkCellView {
  isOccupied : bool;
  onClick : Z * Z
}.

(** [grid.map((row, rowIndex) => row.map((cell, colIndex) => <Cell ... />))] *)
Definition renderBoard (g : Grid) : list (list CellView) :=
  imap (fun rowIndex row =>
          imap (fun colIndex cell =>
                  {| isOccupied := bool_decide (cell = T);
                     onClick := (Z.of_nat rowIndex, Z.of_nat colIndex) |})
               row)
       g.

(** The cell rendered at row [r], column [c] of the board, if any. *)
Definition cellViewAt (rows : list (list CellView)) (r c : Z) : option CellView :=
  match index rows r with
  | None => None
  | Some row => index row c
  end.

(** [<Button onClick={undo} disabled={currentStep === 0}>] *)
Definition undoDisabled (currentStep : Z) : bool := currentStep =? 0.

(** [<Button onClick={redo} disabled={currentStep === history.length - 1}>] *)
Definition redoDisabled (currentStep : Z) (history : list Grid) : bool :=
  currentStep =? len history - 1.

End View.

(** ** The password gate

    [App] of [src/unnamed/part_000] (lines 280-320): the 8x8 puzzle is
    always mounted; the input, the Unlock button and the error message
    are rendered while [isUnlocked] is false, the 6x6 puzzle once it is
    true.  A component that is mounted starts from its initial state. *)

Module Gate.

Record State : Type := mkState {
  password : string;
  isUnlocked : bool;
  error : string;
  puzzle8 : Game.State;
  puzzle6 : option Game.State
}.

Definition init : State :=
  {| password := EmptyString;
     isUnlocked := false;
     error := EmptyString;
     puzzle8 := Game.init 8;
     puzzle6 := None |}.

(** [onChange={(e) => setPassword(e.target.value)}] *)
Definition onChange (s : State) (value : string) : State :=
  {| password := value;
     isUnlocked := isUnlocked s;
     error := error s;
     puzzle8 := puzzle8 s;
     puzzle6 := puzzle6 s |}.

(** The 6x6 puzzle is mounted by the render that follows
    [setIsUnlocked(true)]. *)
Definition handlePasswordSubmit (s : State) : State :=
  if String.eqb (password s) "1618" then
    {| password := password s;
       isUnlocked := true;
       error := EmptyString;
       puzzle8 := puzzle8 s;
       puzzle6 := if isUnlocked s then puzzle6 s else Some (Game.init 6) |}
  else
    {| password := password s;
       isUnlocked := isUnlocked s;
       error := "Incorrect password";
       puzzle8 := puzzle8 s;
       puzzle6 := puzzle6 s |}.

(** [{error && <ErrorMessage>{error}</ErrorMessage>}], inside the branch
    rendered while locked. *)
Definition errorShown (s : State) : option string :=
  if isUnlocked s then None
  else if String.eqb (error s) EmptyString then None else Some (error s).

(** The events of the rendered controls. *)
Inductive Event : Type :=
| Change (value : string)
| Submit
| Puzzle8 (op : Game.Op)
| Puzzle6 (op : Game.Op).

(** An event whose control is not rendered cannot be raised: [None]. *)
Definition step (s : State) (ev : Event) : option (outcome State) :=
  match ev with
  | Change value => if isUnlocked s then None else Some (Ok (onChange s value))
  | Submit => if isUnlocked s then None else Some (Ok (handlePasswordSubmit s))
  | Puzzle8 op =>
      Some (g <-- Game.step 8 PuzzleGame.getTetrominoCells (puzzle8 s) op ;;
            Ok {| password := password s;
                  isUnlocked := isUnlocked s;
                  error := error s;
                  puzzle8 := g;
                  puzzle6 := puzzle6 s |})
  | Puzzle6 op =>
      if isUnlocked s then
        match puzzle6 s with
        | Some g6 =>
            Some (g <-- Game.step 6 PuzzleGame.getTetrominoCells g6 op ;;
                  Ok {| password := password s;
                        isUnlocked := isUnlocked s;
                        error := error s;
                        puzzle8 := puzzle8 s;
                        puzzle6 := Some g |})
        | None => None
        end
      else None
  end.

Inductive reachable : State -> Prop :=
| reach_init : reachable init
| reach_step s ev s' : reachable s -> step s ev = Some (Ok s') -> reachable s'.

End Gate.

(** ** Further notions used in the properties below *)

(** The number of ['T'] entries of a row, and of a board. *)
Definition countRow (row : list Cell) : nat :=
  length (filter (fun x => x = T) row).

Definition countT (g : Grid) : nat := sum_list_with countRow g.

(** Rotations 0 and 180 exchanged. *)
Definition swapRotation (rotation : Rotation) : Rotation :=
  match rotation with
  | R0 => R180
  | R90 => R90
  | R180 => R0
  | R270 => R270
  end.

Definition swapState (s : Game.State) : Game.State :=
  {| Game.grid := Game.grid s;
     Game.history := Game.history s;
     Game.currentStep := Game.currentStep s;
     Game.currentRotation := swapRotation (Game.currentRotation s) |}.

Definition swapOp (op : Game.Op) : Game.Op :=
  match op with
  | Game.Rotate rotation => Game.Rotate (swapRotation rotation)
  | _ => op
  end.

Definition mapOutcome {A B : Type} (f : A -> B) (m : outcome A) : outcome B :=
  match m with
  | Ok a => Ok (f a)
  | Throw => Throw
  end.

(** A state of [src/unnamed/part_001] seen as a state of a component
    with a rotation control, at rotation 0. *)
Definition asGame (s : Single.State) : Game.State :=
  {| Game.grid := Single.grid s;
     Game.history := Single.history s;
     Game.currentStep := Single.currentStep s;
     Game.currentRotation := R0 |}.

Definition asGameOp (op : Single.Op) : Game.Op :=
  match op with
  | Single.Place row col => Game.Place row col
  | Single.Undo => Game.Undo
  | Single.Redo => Game.Redo
  | Single.Reset => Game.Reset
  end.

(** The offset tables found in the source. *)
Definition fromSource (cells : Z -> Z -> Rotation -> list (Z * Z)) : Prop :=
  cells = App.getTetrominoCells
  \/ cells = App2.getTetrominoCells
  \/ cells = PuzzleGame.getTetrominoCells.

(** The anchors whose shape lies on the board of side [n], for the
    table of the first component of [src/src/App.tsx]: rotations 0 and
    180 need a row below and a column on either side, rotations 90 and
    270 a row above and below and a column on one side. *)
Definition shapeOnBoard (n row col : Z) (rotation : Rotation) : Prop :=
  match rotation with
  | R0 | R180 => 0 <= row /\ row + 1 < n /\ 1 <= col /\ col + 1 < n
  | R90 => 1 <= row /\ row + 1 < n /\ 1 <= col /\ col < n
  | R270 => 1 <= row /\ row + 1 < n /\ 0 <= col /\ col + 1 < n
  end.

(** [undo], [n] times in a row. *)
Fixpoint undoTimes (n : nat) (s : Game.State) : outcome Game.State :=
  match n with
  | O => Ok s
  | S n' => s' <-- Game.undo s ;; undoTimes n' s'
  end.

(** The state after three placements in the first component of
    [src/src/App.tsx]: rotation 0 at anchors (0, 1), (0, 4) and (2, 1). *)
Definition afterThreePlaces : Game.State :=
  match (s1 <-- App.placeTetromino App.init 0 1 ;;
         s2 <-- App.placeTetromino s1 0 4 ;;
         App.placeTetromino s2 2 1) with
  | Ok s => s
  | Throw => App.init
  end.

(** ** Arrays: basic facts *)

Section ArrayFacts.

Context {A : Type}.
Implicit Types (l : list A) (i : Z).

Lemma index_Some l i x : index l i = Some x -> 0 <= i < len l.
Proof.
  unfold index, len. destruct (Z.ltb_spec i 0) as [Hlt|Hge]; [done|].
  intros H%lookup_lt_Some. lia.
Qed.

Lemma index_is_Some l i : 0 <= i < len l -> is_Some (index l i).
Proof.
  unfold index, len. intros [H0 H1].
  destruct (Z.ltb_spec i 0); [lia|].
  apply lookup_lt_is_Some. lia.
Qed.

Lemma index_None l i : index l i = None -> i < 0 \/ len l <= i.
Proof.
  unfold index, len. destruct (Z.ltb_spec i 0) as [Hlt|Hge]; [auto|].
  intros H%lookup_ge_None. lia.
Qed.

Lemma index_elem_of l i x : index l i = Some x -> x ∈ l.
Proof.
  unfold index. destruct (i <? 0); [done|]. apply list_elem_of_lookup_2.
Qed.

Lemma index_insert_eq l i x :
  0 <= i < len l -> index (<[Z.to_nat i := x]> l) i = Some x.
Proof.
  unfold index, len. intros [H0 H1].
  destruct (Z.ltb_spec i 0); [lia|].
  apply list_lookup_insert_eq. lia.
Qed.

Lemma index_insert_ne l i j x :
  0 <= i -> i <> j -> index (<[Z.to_nat i := x]> l) j = index l j.
Proof.
  unfold index. intros H0 Hne.
  destruct (Z.ltb_spec j 0); [done|].
  apply list_lookup_insert_ne. lia.
Qed.

Lemma len_insert l (n : nat) x : len (<[n := x]> l) = len l.
Proof. unfold len. by rewrite length_insert. Qed.

Lemma len_nonneg l : 0 <= len l.
Proof. unfold len. lia. Qed.

Lemma len_app l1 l2 : len (l1 ++ l2) = len l1 + len l2.
Proof. unfold len. rewrite length_app. lia. Qed.

(** [slice(0, i + 1)] keeps the elements up to and including index [i]. *)
Lemma len_slice0 l i : 0 <= i < len l -> len (slice0 l (i + 1)) = i + 1.
Proof.
  unfold slice0, len. intros [H0 H1].
  destruct (Z.ltb_spec (i + 1) 0); [lia|].
  rewrite length_take. lia.
Qed.

Lemma index_slice0 l i j :
  0 <= j <= i -> index (slice0 l (i + 1)) j = index l j.
Proof.
  unfold slice0, index. intros [H0 H1].
  destruct (Z.ltb_spec (i + 1) 0); [lia|].
  destruct (Z.ltb_spec j 0); [lia|].
  apply lookup_take_lt. lia.
Qed.

Lemma index_app_l l1 l2 i : i < len l1 -> index (l1 ++ l2) i = index l1 i.
Proof.
  unfold index, len. intros H.
  destruct (Z.ltb_spec i 0); [done|].
  apply lookup_app_l. lia.
Qed.

Lemma index_app_last l x : index (l ++ [x]) (len l) = Some x.
Proof.
  unfold index, len.
  destruct (Z.ltb_spec (Z.of_nat (length l)) 0); [lia|].
  rewrite Nat2Z.id. apply list_lookup_middle. done.
Qed.

End ArrayFacts.

(** ** Traced evaluation: basic facts *)

Lemma result_bind {A B : Type} (m : Traced A) (f : A -> Traced B) :
  result (bind m f)
  = match result m with Ok a => result (f a) | Throw => Throw end.
Proof. destruct m as [t [a|]]; simpl; [|done]. by destruct (f a). Qed.

Lemma reads_bind {A B : Type} (m : Traced A) (f : A -> Traced B) :
  reads (bind m f)
  = reads m ++ match result m with Ok a => reads (f a) | Throw => [] end.
Proof.
  destruct m as [t [a|]]; simpl; [|by rewrite app_nil_r].
  by destruct (f a).
Qed.

Lemma result_andAlso (a b : Traced bool) :
  result (a &&& b)
  = match result a with
    | Ok true => result b
    | Ok false => Ok false
    | Throw => Throw
    end.
Proof. unfold andAlso. rewrite result_bind. by destruct (result a) as [[]|]. Qed.

Lemma reads_andAlso (a b : Traced bool) :
  reads (a &&& b)
  = reads a ++ match result a with Ok true => reads b | _ => [] end.
Proof. unfold andAlso. rewrite reads_bind. by destruct (result a) as [[]|]. Qed.

Lemma result_notCell g r c :
  result (notCell g r c)
  = match index g r with
    | Some row => Ok (isFalsy (index row c))
    | None => Throw
    end.
Proof. unfold notCell, readCell. rewrite result_bind. simpl. by destruct (index g r). Qed.

Lemma reads_notCell g r c : reads (notCell g r c) = [(r, c)].
Proof. unfold notCell, readCell. rewrite reads_bind. simpl. by destruct (index g r). Qed.

Lemma result_every p cells :
  result (every p cells)
  = match cells with
    | [] => Ok true
    | x :: rest =>
        match result (p x) with
        | Ok true => result (every p rest)
        | Ok false => Ok false
        | Throw => Throw
        end
    end.
Proof.
  destruct cells as [|x rest]; [done|]. simpl. rewrite result_bind.
  by destruct (result (p x)) as [[]|].
Qed.

(** ** Well-formed boards: basic facts *)

Lemma wfGrid_row n g r row : wfGrid n g -> index g r = Some row -> len row = n.
Proof.
  intros [_ Hrows] Hr. apply index_elem_of in Hr.
  by eapply (proj1 (Forall_forall _ _) Hrows) in Hr.
Qed.

Lemma wfGrid_cellAt n g r c :
  wfGrid n g -> 0 <= r < n -> 0 <= c < n -> is_Some (cellAt g r c).
Proof.
  intros Hwf Hr Hc. unfold cellAt.
  destruct (index_is_Some g r) as [row Hrow]; [destruct Hwf; lia|].
  rewrite Hrow. apply index_is_Some.
  by rewrite (wfGrid_row _ _ _ _ Hwf Hrow).
Qed.

Lemma wfGrid_emptyGrid n : 0 <= n -> wfGrid n (emptyGrid n).
Proof.
  intros Hn. unfold wfGrid, emptyGrid, len. rewrite length_replicate.
  split; [lia|]. apply Forall_replicate. rewrite length_replicate. lia.
Qed.

Lemma cellAt_emptyGrid n r c :
  0 <= r < n -> 0 <= c < n -> cellAt (emptyGrid n) r c = Some Empty.
Proof.
  intros Hr Hc. unfold cellAt, emptyGrid, index.
  destruct (Z.ltb_spec r 0); [lia|].
  rewrite lookup_replicate_2; [|lia].
  destruct (Z.ltb_spec c 0); [lia|].
  rewrite lookup_replicate_2; [done|lia].
Qed.

(** ** The placement validator *)

Lemma result_ret {A : Type} (a : A) : result (ret a) = Ok a.
Proof. done. Qed.

Lemma isFalsy_Some x : isFalsy (Some x) = true <-> x = Empty.
Proof. by destruct x. Qed.

(** On a well-formed board, [!grid[r][c]] at a position of the board
    does not throw and tells whether the cell is [Empty]. *)
Lemma notCell_wf n g r c :
  wfGrid n g -> 0 <= r < n -> 0 <= c < n ->
  exists b, result (notCell g r c) = Ok b
            /\ (b = true <-> cellAt g r c = Some Empty).
Proof.
  intros Hwf Hr Hc. rewrite result_notCell. unfold cellAt.
  destruct (index_is_Some g r) as [row Hrow]; [destruct Hwf; lia|].
  rewrite Hrow.
  destruct (index_is_Some row c) as [x Hx];
    [by rewrite (wfGrid_row _ _ _ _ Hwf Hrow)|].
  rewrite Hx. eexists; split; [done|].
  rewrite isFalsy_Some. split; congruence.
Qed.

Lemma cellFree_spec size g rc :
  wfGrid size g ->
  exists b, result (Game.cellFree size g rc) = Ok b
            /\ (b = true <-> fits size g rc).
Proof.
  intros Hwf. destruct rc as [r c]. unfold Game.cellFree, fits. simpl.
  rewrite !result_andAlso, !result_ret.
  destruct (Z.leb_spec 0 r) as [Ha|Ha];
    [|exists false; split; [done|]; split; [done|lia]].
  destruct (Z.ltb_spec r size) as [Hb|Hb];
    [|exists false; split; [done|]; split; [done|lia]].
  destruct (Z.leb_spec 0 c) as [Hc|Hc];
    [|exists false; split; [done|]; split; [done|lia]].
  destruct (Z.ltb_spec c size) as [Hd|Hd];
    [|exists false; split; [done|]; split; [done|lia]].
  destruct (notCell_wf size g r c) as (b & Hres & Hiff); [done|lia|lia|].
  exists b. split; [done|]. rewrite Hiff. intuition lia.
Qed.

Lemma every_spec (p : Z * Z -> Traced bool) (P : Z * Z -> Prop) cells :
  (forall x, exists b, result (p x) = Ok b /\ (b = true <-> P x)) ->
  exists b, result (every p cells) = Ok b /\ (b = true <-> Forall P cells).
Proof.
  intros Hp. induction cells as [|x rest IH]; rewrite result_every.
  - exists true. split; [done|]. split; [constructor|done].
  - destruct (Hp x) as (b & -> & Hb). destruct b.
    + destruct IH as (b' & Hb' & Hiff). exists b'. split; [done|].
      rewrite Hiff, Forall_cons. intuition.
    + exists false. split; [done|]. rewrite Forall_cons.
      split; [done|]. intros [HP _]. by apply Hb in HP.
Qed.

Lemma Game_isValidPlacement_spec size cells g row col rotation :
  wfGrid size g ->
  exists b, result (Game.isValidPlacement size cells g row col rotation) = Ok b
            /\ (b = true <-> Forall (fits size g) (cells row col rotation)).
Proof.
  intros Hwf. unfold Game.isValidPlacement.
  apply every_spec. intros rc. by apply cellFree_spec.
Qed.

Lemma Single_isValidPlacement_spec g row col :
  wfGrid 8 g ->
  exists b, result (Single.isValidPlacement g row col) = Ok b
            /\ (b = true <-> Forall (fits 8 g) (Single.tetrominoCells row col)).
Proof.
  intros Hwf. unfold Single.isValidPlacement, Single.tetrominoCells.
  assert (Hno : forall P : Prop, ~ P -> false = true <-> P)
    by (intros; split; [done|tauto]).
  repeat setoid_rewrite Forall_cons. setoid_rewrite Forall_nil.
  unfold fits. simpl.
  destruct (Z.ltb_spec row 0) as [Ha|Ha];
    [exists false; split; [done|]; apply Hno; lia|].
  destruct (Z.leb_spec 7 row) as [Hb|Hb];
    [exists false; split; [done|]; apply Hno; lia|].
  destruct (Z.ltb_spec col 0) as [Hc|Hc];
    [exists false; split; [done|]; apply Hno; lia|].
  destruct (Z.leb_spec 8 col) as [Hd|Hd];
    [exists false; split; [done|]; apply Hno; lia|].
  simpl. rewrite !result_andAlso, !result_ret.
  destruct (notCell_wf 8 g row col) as (b1 & -> & H1); [done|lia|lia|].
  destruct (notCell_wf 8 g (row + 1) col) as (b2 & -> & H2); [done|lia|lia|].
  destruct b1.
  2:{ exists false. split; [done|]. apply Hno. intros ((_ & _ & H) & _).
      by apply H1 in H. }
  destruct b2.
  2:{ exists false. split; [done|]. apply Hno. intros (_ & (_ & _ & H) & _).
      by apply H2 in H. }
  (* [grid[row + 1][col - 1]] and [grid[row + 1][col + 1]] may lie one
     column off the board; they read [undefined] there. *)
  rewrite !result_notCell.
  destruct (index_is_Some g (row + 1)) as [r1 Hr1]; [destruct Hwf; lia|].
  rewrite Hr1. pose proof (wfGrid_row _ _ _ _ Hwf Hr1) as Hlen.
  assert (Hcell : forall c, cellAt g (row + 1) c = index r1 c)
    by (intros; unfold cellAt; by rewrite Hr1).
  rewrite !Hcell.
  destruct (isFalsy (index r1 (col - 1))) eqn:E1.
  2:{ exists false. split; [done|]. apply Hno.
      intros (_ & _ & (_ & _ & H) & _). by rewrite H in E1. }
  destruct (isFalsy (index r1 (col + 1))) eqn:E2.
  2:{ exists false. split; [done|]. apply Hno.
      intros (_ & _ & _ & (_ & _ & H) & _). by rewrite H in E2. }
  destruct (Z.ltb_spec 0 col) as [He|He];
    [|exists false; split; [done|]; apply Hno; lia].
  destruct (Z.ltb_spec col 7) as [Hf|Hf];
    [|exists false; split; [done|]; apply Hno; lia].
  exists true. split; [done|]. split; [intros _|done].
  destruct (index_is_Some r1 (col - 1)) as [x1 Hx1]; [lia|].
  destruct (index_is_Some r1 (col + 1)) as [x2 Hx2]; [lia|].
  rewrite Hx1 in E1 |- *. rewrite Hx2 in E2 |- *.
  apply isFalsy_Some in E1, E2. subst x1 x2.
  repeat split; try lia; try done; rewrite <- ?Hcell; by (apply H1 || apply H2).
Qed.

(** ** Writing the shape onto the board *)

Lemma fits_onBoard n g rc : fits n g rc -> onBoard n rc.
Proof. unfold fits, onBoard. tauto. Qed.

Lemma setCell_rows g r c g' r' :
  setCell g r c = Ok g' -> is_Some (index g' r') <-> is_Some (index g r').
Proof.
  unfold setCell. destruct (index g r) as [row|]; [|done].
  intros [= <-]. split; intros [x Hx]; apply index_Some in Hx;
    apply index_is_Some; by rewrite len_insert in *.
Qed.

Lemma setCell_total g r c : is_Some (index g r) -> exists g', setCell g r c = Ok g'.
Proof. intros [row Hrow]. unfold setCell. rewrite Hrow. eauto. Qed.

Lemma forEachSet_total g cells :
  Forall (fun rc => is_Some (index g rc.1)) cells ->
  exists g', forEachSet g cells = Ok g'.
Proof.
  revert g. induction cells as [|[r c] rest IH]; intros g Hall; simpl; [eauto|].
  apply Forall_cons in Hall as [Hr Hrest]. simpl in Hr.
  destruct (setCell_total g r c Hr) as [g1 Hg1]. rewrite Hg1.
  apply IH. eapply Forall_impl; [exact Hrest|].
  intros rc. simpl. by rewrite (setCell_rows _ _ _ _ _ Hg1).
Qed.

Lemma setCell_wf n g r c :
  wfGrid n g -> 0 <= r < n -> 0 <= c < n ->
  exists g', setCell g r c = Ok g'
    /\ wfGrid n g'
    /\ cellAt g' r c = Some T
    /\ (forall r' c', (r', c') <> (r, c) -> cellAt g' r' c' = cellAt g r' c').
Proof.
  intros Hwf Hr Hc.
  destruct (index_is_Some g r) as [row Hrow]; [destruct Hwf; lia|].
  pose proof (wfGrid_row _ _ _ _ Hwf Hrow) as Hlen.
  unfold setCell. rewrite Hrow. eexists. split; [done|].
  assert (Hassign : assign row c T = <[Z.to_nat c := T]> row).
  { unfold assign. destruct (Z.ltb_spec c 0); [lia|].
    destruct (Z.ltb_spec c (len row)); [done|lia]. }
  rewrite Hassign. destruct Hwf as [Hg Hrows].
  assert (Hnew : index (<[Z.to_nat r := <[Z.to_nat c := T]> row]> g) r
                 = Some (<[Z.to_nat c := T]> row))
    by (apply index_insert_eq; lia).
  repeat split.
  - by rewrite len_insert.
  - apply Forall_insert; [done|]. by rewrite len_insert.
  - unfold cellAt. rewrite Hnew. apply index_insert_eq. lia.
  - intros r' c' Hne. unfold cellAt.
    destruct (decide (r' = r)) as [->|Hr'].
    + rewrite Hnew, Hrow. apply index_insert_ne; [lia|congruence].
    + rewrite index_insert_ne; [done|lia|done].
Qed.

Lemma forEachSet_wf n g cells :
  wfGrid n g -> Forall (onBoard n) cells ->
  exists g', forEachSet g cells = Ok g'
    /\ wfGrid n g'
    /\ (forall rc, rc ∈ cells -> cellAt g' rc.1 rc.2 = Some T)
    /\ (forall r c, (r, c) ∉ cells -> cellAt g' r c = cellAt g r c).
Proof.
  revert g. induction cells as [|[r c] rest IH]; intros g Hwf Hall; simpl.
  - exists g. split; [done|]. split; [done|]. split; [|done].
    intros rc Hin. by apply elem_of_nil in Hin.
  - apply Forall_cons in Hall as [[Hr Hc] Hrest]. simpl in Hr, Hc.
    destruct (setCell_wf n g r c Hwf Hr Hc) as (g1 & -> & Hwf1 & Hset & Hframe).
    destruct (IH g1 Hwf1 Hrest) as (g' & -> & Hwf' & Hin' & Hout').
    exists g'. split; [done|]. split; [done|]. split.
    + intros [r' c'] Hin. simpl.
      destruct (decide ((r', c') ∈ rest)) as [Hrest'|Hrest'];
        [by apply (Hin' (r', c'))|].
      apply elem_of_cons in Hin as [[= -> ->]|Hin]; [|done].
      by rewrite Hout'.
    + intros r' c' Hnotin. apply not_elem_of_cons in Hnotin as [Hne Hnotin].
      rewrite Hout'; [|done]. by apply Hframe.
Qed.

(** ** [placeTetromino]: the two branches *)

Lemma every_cellFree_rows size g cells :
  result (every (Game.cellFree size g) cells) = Ok true ->
  Forall (fun rc => is_Some (index g rc.1)) cells.
Proof.
  induction cells as [|[r c] rest IH]; [constructor|].
  rewrite result_every.
  destruct (result (Game.cellFree size g (r, c))) as [[]|] eqn:E; [|done|done].
  intros Hrest. constructor; [|by apply IH]. simpl.
  unfold Game.cellFree in E. rewrite !result_andAlso, !result_ret in E.
  destruct (0 <=? r), (r <? size), (0 <=? c), (c <? size); try done.
  rewrite result_notCell in E. by destruct (index g r).
Qed.

Lemma Game_place_rejected size cells s row col :
  result (Game.isValidPlacement size cells (Game.grid s) row col
            (Game.currentRotation s)) = Ok false ->
  Game.placeTetromino size cells s row col = Ok s.
Proof. unfold Game.placeTetromino. by intros ->. Qed.

Lemma Game_place_accepted size cells s row col :
  result (Game.isValidPlacement size cells (Game.grid s) row col
            (Game.currentRotation s)) = Ok true ->
  exists newGrid,
    forEachSet (Game.grid s) (cells row col (Game.currentRotation s)) = Ok newGrid
    /\ Game.placeTetromino size cells s row col
       = Ok {| Game.grid := newGrid;
               Game.history :=
                 slice0 (Game.history s) (Game.currentStep s + 1) ++ [newGrid];
               Game.currentStep := Game.currentStep s + 1;
               Game.currentRotation := Game.currentRotation s |}.
Proof.
  intros Hacc. unfold Game.placeTetromino. rewrite Hacc.
  destruct (forEachSet_total (Game.grid s) (cells row col (Game.currentRotation s)))
    as [g' Hg']; [by eapply every_cellFree_rows|].
  exists g'. by rewrite Hg'.
Qed.

(** The four assignments of [src/unnamed/part_001] are the writes of
    [forEachSet] on the cells of the shape. *)
Lemma Single_place_unfold s row col :
  Single.placeTetromino s row col
  = match result (Single.isValidPlacement (Single.grid s) row col) with
    | Throw => Throw
    | Ok false => Ok s
    | Ok true =>
        match forEachSet (Single.grid s) (Single.tetrominoCells row col) with
        | Throw => Throw
        | Ok newGrid =>
            Ok {| Single.grid := newGrid;
                  Single.history :=
                    slice0 (Single.history s) (Single.currentStep s + 1) ++ [newGrid];
                  Single.currentStep := Single.currentStep s + 1 |}
        end
    end.
Proof.
  unfold Single.placeTetromino, Single.tetrominoCells.
  destruct (result _) as [[]|]; [|done|done]. simpl.
  destruct (setCell _ row col) as [g1|]; [simpl|done].
  destruct (setCell g1 _ _) as [g2|]; [simpl|done].
  destruct (setCell g2 _ _) as [g3|]; [simpl|done].
  by destruct (setCell g3 _ _) as [g4|].
Qed.

Lemma Single_valid_rows g row col :
  result (Single.isValidPlacement g row col) = Ok true ->
  Forall (fun rc => is_Some (index g rc.1)) (Single.tetrominoCells row col).
Proof.
  unfold Single.isValidPlacement, Single.tetrominoCells.
  destruct (_ || _); [done|].
  rewrite !result_andAlso, !result_notCell.
  destruct (index g row) as [r0|] eqn:E0; [|done].
  destruct (isFalsy _); [|done].
  destruct (index g (row + 1)) as [r1|] eqn:E1; [|done].
  intros _. repeat constructor; simpl; rewrite ?E0, ?E1; eauto.
Qed.

Lemma Single_place_rejected s row col :
  result (Single.isValidPlacement (Single.grid s) row col) = Ok false ->
  Single.placeTetromino s row col = Ok s.
Proof. unfold Single.placeTetromino. by intros ->. Qed.

Lemma Single_place_accepted s row col :
  result (Single.isValidPlacement (Single.grid s) row col) = Ok true ->
  exists newGrid,
    forEachSet (Single.grid s) (Single.tetrominoCells row col) = Ok newGrid
    /\ Single.placeTetromino s row col
       = Ok {| Single.grid := newGrid;
               Single.history :=
                 slice0 (Single.history s) (Single.currentStep s + 1) ++ [newGrid];
               Single.currentStep := Single.currentStep s + 1 |}.
Proof.
  intros Hacc. rewrite Single_place_unfold, Hacc.
  destruct (forEachSet_total (Single.grid s) (Single.tetrominoCells row col))
    as [g' Hg']; [by apply Single_valid_rows|].
  exists g'. by rewrite Hg'.
Qed.

(** ** The history: cursor invariant *)

Lemma Forall_slice0 {A : Type} (P : A -> Prop) (l : list A) e :
  Forall P l -> Forall P (slice0 l e).
Proof. intros H. unfold slice0. destruct (e <? 0); by apply Forall_take. Qed.

(** Appending after the snapshots kept by [slice(0, i + 1)] puts the new
    snapshot at index [i + 1], the last one. *)
Lemma record_index {A : Type} (h : list A) (i : Z) (x y : A) :
  index h i = Some x ->
  index (slice0 h (i + 1) ++ [y]) (i + 1) = Some y
  /\ len (slice0 h (i + 1) ++ [y]) = i + 2.
Proof.
  intros Hi%index_Some.
  pose proof (len_slice0 h i Hi) as Hlen.
  split.
  - rewrite <- Hlen at 2. apply index_app_last.
  - rewrite len_app, Hlen. unfold len. simpl. lia.
Qed.

Lemma record_keeps {A : Type} (h : list A) (i j : Z) (y : A) :
  0 <= j <= i -> i < len h ->
  index (slice0 h (i + 1) ++ [y]) j = index h j.
Proof.
  intros Hj Hi. rewrite index_app_l; [by apply index_slice0|].
  rewrite len_slice0; lia.
Qed.

Module GameInv.

Import Game.

Section WithSizeAndTable.

Variable size : Z.
Variable cells : Z -> Z -> Rotation -> list (Z * Z).

Lemma cursorInv_range s :
  cursorInv s -> 0 <= currentStep s <= len (history s) - 1.
Proof. intros H%index_Some. lia. Qed.

Lemma cursorInv_init : cursorInv (init size).
Proof. done. Qed.

Lemma undo_cases s :
  (currentStep s <= 0 /\ undo s = Ok s)
  \/ (0 < currentStep s
      /\ match index (history s) (currentStep s - 1) with
         | Some g => undo s = Ok {| grid := g;
                                    history := history s;
                                    currentStep := currentStep s - 1;
                                    currentRotation := currentRotation s |}
         | None => undo s = Throw
         end).
Proof.
  unfold undo. destruct (Z.ltb_spec 0 (currentStep s)); [right|left; done].
  split; [done|]. by destruct (index _ _).
Qed.

Lemma redo_cases s :
  (len (history s) - 1 <= currentStep s /\ redo s = Ok s)
  \/ (currentStep s < len (history s) - 1
      /\ match index (history s) (currentStep s + 1) with
         | Some g => redo s = Ok {| grid := g;
                                    history := history s;
                                    currentStep := currentStep s + 1;
                                    currentRotation := currentRotation s |}
         | None => redo s = Throw
         end).
Proof.
  unfold redo.
  destruct (Z.ltb_spec (currentStep s) (len (history s) - 1)); [right|left; done].
  split; [done|]. by destruct (index _ _).
Qed.

Lemma cursorInv_step s op s' :
  cursorInv s -> step size cells s op = Ok s' -> cursorInv s'.
Proof.
  intros Hinv. destruct op as [row col| | | |rotation]; simpl.
  - destruct (result (isValidPlacement size cells (grid s) row col (currentRotation s)))
      as [[]|] eqn:Hv.
    + destruct (Game_place_accepted _ _ _ _ _ Hv) as (g' & _ & ->).
      intros [= <-]. unfold cursorInv. simpl.
      by apply (record_index _ _ (grid s)).
    + rewrite (Game_place_rejected _ _ _ _ _ Hv). by intros [= <-].
    + unfold placeTetromino. by rewrite Hv.
  - destruct (undo_cases s) as [[_ ->]|[_ Hu]]; [by intros [= <-]|].
    destruct (index _ _) as [g|] eqn:E; rewrite Hu; [|done]. by intros [= <-].
  - destruct (redo_cases s) as [[_ ->]|[_ Hu]]; [by intros [= <-]|].
    destruct (index _ _) as [g|] eqn:E; rewrite Hu; [|done]. by intros [= <-].
  - by intros [= <-].
  - by intros [= <-].
Qed.

Lemma reachable_cursorInv s : reachable size cells s -> cursorInv s.
Proof.
  induction 1 as [|s op s' _ IH Hstep]; [apply cursorInv_init|].
  by eapply cursorInv_step.
Qed.

(** On a state that satisfies the cursor invariant, [undo] and [redo]
    return a state. *)
Lemma undo_total s : cursorInv s -> exists s', undo s = Ok s'.
Proof.
  intros Hinv%cursorInv_range.
  destruct (undo_cases s) as [[_ ->]|[Hpos Hu]]; [eauto|].
  destruct (index_is_Some (history s) (currentStep s - 1)) as [g Hg]; [lia|].
  rewrite Hg in Hu. eauto.
Qed.

Lemma redo_total s : cursorInv s -> exists s', redo s = Ok s'.
Proof.
  intros Hinv%cursorInv_range.
  destruct (redo_cases s) as [[_ ->]|[Hpos Hu]]; [eauto|].
  destruct (index_is_Some (history s) (currentStep s + 1)) as [g Hg]; [lia|].
  rewrite Hg in Hu. eauto.
Qed.

(** [undo] then [redo] gives back the state, when there is something
    to undo. *)
Lemma undo_redo s :
  cursorInv s -> 0 < currentStep s ->
  exists s1, undo s = Ok s1 /\ redo s1 = Ok s.
Proof.
  intros Hinv Hpos. pose proof (cursorInv_range _ Hinv) as Hrange.
  destruct (undo_cases s) as [[Hle _]|[_ Hu]]; [lia|].
  destruct (index_is_Some (history s) (currentStep s - 1)) as [g Hg]; [lia|].
  rewrite Hg in Hu. eexists. split; [exact Hu|].
  unfold redo. simpl.
  destruct (Z.ltb_spec (currentStep s - 1) (len (history s) - 1)); [|lia].
  replace (currentStep s - 1 + 1) with (currentStep s) by lia.
  rewrite Hinv. by destruct s.
Qed.

(** Boards stay square. *)
Lemma boardsInv_init : 0 <= size -> boardsInv size (init size).
Proof.
  intros Hsize. split; simpl; [|constructor; [|constructor]];
    by apply wfGrid_emptyGrid.
Qed.

Lemma boardsInv_index s i g :
  boardsInv size s -> index (history s) i = Some g -> wfGrid size g.
Proof.
  intros [_ Hall] Hi%index_elem_of.
  by apply (proj1 (Forall_forall _ _) Hall).
Qed.

Lemma boardsInv_step s op s' :
  0 <= size -> boardsInv size s -> step size cells s op = Ok s' ->
  boardsInv size s'.
Proof.
  intros Hsize Hinv. destruct op as [row col| | | |rotation]; simpl.
  - destruct (Game_isValidPlacement_spec size cells (grid s) row col
                (currentRotation s) (proj1 Hinv)) as (b & Hb & Hiff).
    destruct b.
    + destruct (Game_place_accepted _ _ _ _ _ Hb) as (g' & Hg' & ->).
      intros [= <-].
      destruct (forEachSet_wf size (grid s) (cells row col (currentRotation s)))
        as (g'' & Hg'' & Hwf & _); [apply Hinv| |].
      { eapply Forall_impl; [by apply Hiff|]. apply fits_onBoard. }
      rewrite Hg' in Hg''. injection Hg'' as <-.
      split; simpl; [done|]. apply Forall_app. split.
      * apply Forall_slice0, Hinv.
      * by constructor.
    + rewrite (Game_place_rejected _ _ _ _ _ Hb). by intros [= <-].
  - destruct (undo_cases s) as [[_ ->]|[_ Hu]]; [by intros [= <-]|].
    destruct (index _ _) as [g|] eqn:E; rewrite Hu; [|done]. intros [= <-].
    split; simpl; [by eapply boardsInv_index|apply Hinv].
  - destruct (redo_cases s) as [[_ ->]|[_ Hu]]; [by intros [= <-]|].
    destruct (index _ _) as [g|] eqn:E; rewrite Hu; [|done]. intros [= <-].
    split; simpl; [by eapply boardsInv_index|apply Hinv].
  - intros [= <-]. by apply boardsInv_init.
  - intros [= <-]. exact Hinv.
Qed.

Lemma reachable_boardsInv s :
  0 <= size -> reachable size cells s -> boardsInv size s.
Proof.
  intros Hsize. induction 1 as [|s op s' _ IH Hstep]; [by apply boardsInv_init|].
  by eapply boardsInv_step.
Qed.

(** No event makes the component throw. *)
Lemma step_total s op :
  0 <= size -> reachable size cells s -> exists s', step size cells s op = Ok s'.
Proof.
  intros Hsize Hreach.
  pose proof (reachable_cursorInv _ Hreach) as Hcur.
  pose proof (reachable_boardsInv _ Hsize Hreach) as Hwf.
  destruct op as [row col| | | |rotation]; simpl; eauto using undo_total, redo_total.
  destruct (Game_isValidPlacement_spec size cells (grid s) row col
              (currentRotation s) (proj1 Hwf)) as (b & Hb & _).
  destruct b.
  - destruct (Game_place_accepted _ _ _ _ _ Hb) as (g' & _ & ->). eauto.
  - rewrite (Game_place_rejected _ _ _ _ _ Hb). eauto.
Qed.

End WithSizeAndTable.

End GameInv.

(** The same invariants for the component without rotation. *)
Module SingleInv.

Import Single.

Lemma single_cursorInv_range s :
  cursorInv s -> 0 <= currentStep s <= len (history s) - 1.
Proof. intros H%index_Some. lia. Qed.

Lemma single_cursorInv_init : cursorInv init.
Proof. done. Qed.

Lemma single_undo_cases s :
  (currentStep s <= 0 /\ undo s = Ok s)
  \/ (0 < currentStep s
      /\ match index (history s) (currentStep s - 1) with
         | Some g => undo s = Ok {| grid := g;
                                    history := history s;
                                    currentStep := currentStep s - 1 |}
         | None => undo s = Throw
         end).
Proof.
  unfold undo. destruct (Z.ltb_spec 0 (currentStep s)); [right|left; done].
  split; [done|]. by destruct (index _ _).
Qed.

Lemma single_redo_cases s :
  (len (history s) - 1 <= currentStep s /\ redo s = Ok s)
  \/ (currentStep s < len (history s) - 1
      /\ match index (history s) (currentStep s + 1) with
         | Some g => redo s = Ok {| grid := g;
                                    history := history s;
                                    currentStep := currentStep s + 1 |}
         | None => redo s = Throw
         end).
Proof.
  unfold redo.
  destruct (Z.ltb_spec (currentStep s) (len (history s) - 1)); [right|left; done].
  split; [done|]. by destruct (index _ _).
Qed.

Lemma single_cursorInv_step s op s' :
  cursorInv s -> step s op = Ok s' -> cursorInv s'.
Proof.
  intros Hinv. destruct op as [row col| | |]; simpl.
  - destruct (result (isValidPlacement (grid s) row col)) as [[]|] eqn:Hv.
    + destruct (Single_place_accepted _ _ _ Hv) as (g' & _ & ->).
      intros [= <-]. unfold cursorInv. simpl.
      by apply (record_index _ _ (grid s)).
    + rewrite (Single_place_rejected _ _ _ Hv). by intros [= <-].
    + unfold placeTetromino. by rewrite Hv.
  - destruct (single_undo_cases s) as [[_ ->]|[_ Hu]]; [by intros [= <-]|].
    destruct (index _ _) as [g|] eqn:E; rewrite Hu; [|done]. by intros [= <-].
  - destruct (single_redo_cases s) as [[_ ->]|[_ Hu]]; [by intros [= <-]|].
    destruct (index _ _) as [g|] eqn:E; rewrite Hu; [|done]. by intros [= <-].
  - by intros [= <-].
Qed.

Lemma single_reachable_cursorInv s : reachable s -> cursorInv s.
Proof.
  induction 1 as [|s op s' _ IH Hstep]; [apply single_cursorInv_init|].
  by eapply single_cursorInv_step.
Qed.

Lemma single_undo_total s : cursorInv s -> exists s', undo s = Ok s'.
Proof.
  intros Hinv%single_cursorInv_range.
  destruct (single_undo_cases s) as [[_ ->]|[Hpos Hu]]; [eauto|].
  destruct (index_is_Some (history s) (currentStep s - 1)) as [g Hg]; [lia|].
  rewrite Hg in Hu. eauto.
Qed.

Lemma single_redo_total s : cursorInv s -> exists s', redo s = Ok s'.
Proof.
  intros Hinv%single_cursorInv_range.
  destruct (single_redo_cases s) as [[_ ->]|[Hpos Hu]]; [eauto|].
  destruct (index_is_Some (history s) (currentStep s + 1)) as [g Hg]; [lia|].
  rewrite Hg in Hu. eauto.
Qed.

Lemma single_undo_redo s :
  cursorInv s -> 0 < currentStep s ->
  exists s1, undo s = Ok s1 /\ redo s1 = Ok s.
Proof.
  intros Hinv Hpos. pose proof (single_cursorInv_range _ Hinv) as Hrange.
  destruct (single_undo_cases s) as [[Hle _]|[_ Hu]]; [lia|].
  destruct (index_is_Some (history s) (currentStep s - 1)) as [g Hg]; [lia|].
  rewrite Hg in Hu. eexists. split; [exact Hu|].
  unfold redo. simpl.
  destruct (Z.ltb_spec (currentStep s - 1) (len (history s) - 1)); [|lia].
  replace (currentStep s - 1 + 1) with (currentStep s) by lia.
  rewrite Hinv. by destruct s.
Qed.

Lemma single_boardsInv_init : boardsInv init.
Proof.
  split; simpl; [|constructor; [|constructor]]; by apply wfGrid_emptyGrid.
Qed.

Lemma single_boardsInv_index s i g :
  boardsInv s -> index (history s) i = Some g -> wfGrid 8 g.
Proof.
  intros [_ Hall] Hi%index_elem_of.
  by apply (proj1 (Forall_forall _ _) Hall).
Qed.

Lemma single_boardsInv_step s op s' :
  boardsInv s -> step s op = Ok s' -> boardsInv s'.
Proof.
  intros Hinv. destruct op as [row col| | |]; simpl.
  - destruct (Single_isValidPlacement_spec (grid s) row col (proj1 Hinv))
      as (b & Hb & Hiff).
    destruct b.
    + destruct (Single_place_accepted _ _ _ Hb) as (g' & Hg' & ->).
      intros [= <-].
      destruct (forEachSet_wf 8 (grid s) (tetrominoCells row col))
        as (g'' & Hg'' & Hwf & _); [apply Hinv| |].
      { eapply Forall_impl; [by apply Hiff|]. apply fits_onBoard. }
      rewrite Hg' in Hg''. injection Hg'' as <-.
      split; simpl; [done|]. apply Forall_app. split.
      * apply Forall_slice0, Hinv.
      * by constructor.
    + rewrite (Single_place_rejected _ _ _ Hb). by intros [= <-].
  - destruct (single_undo_cases s) as [[_ ->]|[_ Hu]]; [by intros [= <-]|].
    destruct (index _ _) as [g|] eqn:E; rewrite Hu; [|done]. intros [= <-].
    split; simpl; [by eapply single_boardsInv_index|apply Hinv].
  - destruct (single_redo_cases s) as [[_ ->]|[_ Hu]]; [by intros [= <-]|].
    destruct (index _ _) as [g|] eqn:E; rewrite Hu; [|done]. intros [= <-].
    split; simpl; [by eapply single_boardsInv_index|apply Hinv].
  - intros [= <-]. apply single_boardsInv_init.
Qed.

Lemma single_reachable_boardsInv s : reachable s -> boardsInv s.
Proof.
  induction 1 as [|s op s' _ IH Hstep]; [apply single_boardsInv_init|].
  by eapply single_boardsInv_step.
Qed.

Lemma single_step_total s op : reachable s -> exists s', step s op = Ok s'.
Proof.
  intros Hreach.
  pose proof (single_reachable_cursorInv _ Hreach) as Hcur.
  pose proof (single_reachable_boardsInv _ Hreach) as Hwf.
  destruct op as [row col| | |]; simpl; eauto using single_undo_total, single_redo_total.
  destruct (Single_isValidPlacement_spec (grid s) row col (proj1 Hwf))
    as (b & Hb & _).
  destruct b.
  - destruct (Single_place_accepted _ _ _ Hb) as (g' & _ & ->). eauto.
  - rewrite (Single_place_rejected _ _ _ Hb). eauto.
Qed.

End SingleInv.

(** ** The occupied cells of a board *)

Lemma elem_of_occupiedInRow r row r' c :
  (r', c) ∈ occupiedInRow r row <-> r' = r /\ index row c = Some T.
Proof.
  unfold occupiedInRow. rewrite list_elem_of_omap. split.
  - intros ([j x] & Hin & Hsome).
    apply elem_of_lookup_imap in Hin as (j' & x' & Heq & Hj).
    injection Heq as -> ->.
    destruct (decide (x' = T)) as [->|]; [|done].
    injection Hsome as <- <-. split; [done|].
    unfold index. destruct (Z.ltb_spec (Z.of_nat j') 0) as [Hlt|Hge]; [lia|].
    by rewrite Nat2Z.id.
  - intros [-> Hc]. unfold index in Hc.
    destruct (Z.ltb_spec c 0); [done|].
    exists (Z.to_nat c, T). split.
    + apply elem_of_lookup_imap. eauto.
    + simpl. rewrite Z2Nat.id by lia. done.
Qed.

Lemma elem_of_occupied g r c :
  (r, c) ∈ occupied g <-> cellAt g r c = Some T.
Proof.
  unfold occupied, cellAt. rewrite list_elem_of_In, in_concat. split.
  - intros (l & Hl & Hin). apply list_elem_of_In in Hl, Hin.
    apply elem_of_lookup_imap in Hl as (i & row & -> & Hi).
    apply elem_of_occupiedInRow in Hin as [-> Hc].
    unfold index at 1. destruct (Z.ltb_spec (Z.of_nat i) 0); [lia|].
    by rewrite Nat2Z.id, Hi.
  - destruct (index g r) as [row|] eqn:Hr; [|done]. intros Hc.
    unfold index in Hr. destruct (Z.ltb_spec r 0); [done|].
    exists (occupiedInRow r row). split; apply list_elem_of_In.
    + apply elem_of_lookup_imap. exists (Z.to_nat r), row.
      rewrite Z2Nat.id by lia. done.
    + by apply elem_of_occupiedInRow.
Qed.

(** ** The offset tables describe four distinct cells *)

Ltac four_distinct :=
  split; [done|];
  repeat (apply NoDup_cons; split;
          [rewrite ?elem_of_cons, ?elem_of_nil;
           intros H; repeat (destruct H as [H|H]); try done; injection H; lia|]);
  apply NoDup_nil; done.

Lemma App_fourDistinct row col rotation :
  fourDistinct (App.getTetrominoCells row col rotation).
Proof. destruct rotation; four_distinct. Qed.

Lemma App2_fourDistinct row col rotation :
  fourDistinct (App2.getTetrominoCells row col rotation).
Proof. destruct rotation; four_distinct. Qed.

Lemma PuzzleGame_fourDistinct row col rotation :
  fourDistinct (PuzzleGame.getTetrominoCells row col rotation).
Proof. destruct rotation; four_distinct. Qed.

Lemma Single_fourDistinct row col :
  fourDistinct (Single.tetrominoCells row col).
Proof. four_distinct. Qed.

(** ** The scenario on the empty 8x8 board *)

Ltac same_elements :=
  intros rc;
  match goal with
  | |- _ ∈ ?l <-> _ ∈ ?l' =>
      let v := eval vm_compute in l in
      let v' := eval vm_compute in l' in
      change (rc ∈ v <-> rc ∈ v')
  end;
  rewrite !elem_of_cons, !elem_of_nil; tauto.

Ltac run_scenario :=
  split; [done|];
  eexists; eexists;
  split; [done|];
  split; [vm_compute; reflexivity|];
  split; [same_elements|];
  split; [vm_compute; reflexivity|];
  split; [vm_compute; reflexivity|];
  split; [vm_compute; reflexivity|];
  split; [vm_compute; reflexivity|];
  split; [vm_compute; reflexivity|];
  vm_compute; reflexivity.

(** C1, as stated, for the first component of [src/src/App.tsx]: the
    scenario does not hold there.  Rotation 0 has another pattern, and
    the placement at anchor (0, 1) leaves the cell (1, 0) empty. *)
Lemma scenario_fails_first_App :
  ~ scenario App.getTetrominoCells stemUp stemUpCells.
Proof.
  intros (_ & s1 & s2 & _ & Hplace & Hocc & _).
  vm_compute in Hplace. injection Hplace as <-.
  assert (Hin : (1, 0) ∈ stemUpCells)
    by (unfold stemUpCells; rewrite !elem_of_cons; auto).
  apply Hocc, elem_of_occupied in Hin. vm_compute in Hin. done.
Qed.

(** C1, amended: the scenario holds as stated in the second component of
    [src/src/App.tsx]; in the first component and in [PuzzleGame] of
    [src/unnamed/part_000] at size 8, rotation 0 is
    (r+1,c),(r,c),(r,c-1),(r,c+1), the placement at anchor (0, 1)
    occupies {(1,1),(0,1),(0,0),(0,2)}, and the rest of the scenario
    holds: the second placement is rejected and changes nothing, [undo]
    gives the empty board, [redo] gives the placement back. *)
Theorem scenario_per_table :
  scenario App2.getTetrominoCells stemUp stemUpCells
  /\ scenario App.getTetrominoCells stemDown stemDownCells
  /\ scenario PuzzleGame.getTetrominoCells stemDown stemDownCells.
Proof. split; [|split]; run_scenario. Qed.

(** In the first component the cell (1, 0) stays empty and (0, 0) is
    taken. *)
Example first_App_anchor_0_1 :
  exists s1, App.placeTetromino App.init 0 1 = Ok s1
    /\ cellAt (Game.grid s1) 1 0 = Some Empty
    /\ cellAt (Game.grid s1) 0 0 = Some T.
Proof. eexists. split; [vm_compute; reflexivity|]. by vm_compute. Qed.

(** ** The validator accepts exactly the placements that fit *)

(** C2: on every board of side N, for every anchor and rotation, the
    validator returns a boolean, and it accepts if and only if each of
    the cells of the shape has its row and column in [0, N) and is
    Empty; the hand-written checks of [src/unnamed/part_001] amount to
    the same condition for its shape on the board of side 8. *)
Theorem isValidPlacement_iff_fits :
  (forall size cells g row col rotation,
      wfGrid size g ->
      exists b,
        result (Game.isValidPlacement size cells g row col rotation) = Ok b
        /\ (b = true <-> Forall (fits size g) (cells row col rotation)))
  /\ (forall g row col,
      wfGrid 8 g ->
      exists b,
        result (Single.isValidPlacement g row col) = Ok b
        /\ (b = true <-> Forall (fits 8 g) (Single.tetrominoCells row col))).
Proof.
  split.
  - intros. by apply Game_isValidPlacement_spec.
  - intros. by apply Single_isValidPlacement_spec.
Qed.

Lemma isValidPlacement_iff_fits_witness :
  wfGrid 8 (emptyGrid 8)
  /\ (exists b,
        result (Game.isValidPlacement 8 App.getTetrominoCells (emptyGrid 8) 3 3 R90)
        = Ok b
        /\ (b = true
            <-> Forall (fits 8 (emptyGrid 8)) (App.getTetrominoCells 3 3 R90)))
  /\ (exists b,
        result (Single.isValidPlacement (emptyGrid 8) 0 0) = Ok b
        /\ (b = true
            <-> Forall (fits 8 (emptyGrid 8)) (Single.tetrominoCells 0 0))).
Proof.
  assert (Hwf : wfGrid 8 (emptyGrid 8)) by (apply wfGrid_emptyGrid; lia).
  split; [exact Hwf|]. split.
  - apply (proj1 isValidPlacement_iff_fits 8 App.getTetrominoCells
             (emptyGrid 8) 3 3 R90 Hwf).
  - apply (proj2 isValidPlacement_iff_fits (emptyGrid 8) 0 0 Hwf).
Defined.

(** ** A rejected placement changes nothing *)

(** C3: whenever the validator rejects, [placeTetromino] returns the
    state it was given: grid, history and cursor are unchanged. *)
Theorem rejected_place_unchanged :
  (forall size cells s row col,
      result (Game.isValidPlacement size cells (Game.grid s) row col
                (Game.currentRotation s)) = Ok false ->
      Game.placeTetromino size cells s row col = Ok s)
  /\ (forall s row col,
      result (Single.isValidPlacement (Single.grid s) row col) = Ok false ->
      Single.placeTetromino s row col = Ok s).
Proof.
  split.
  - intros. by apply Game_place_rejected.
  - intros. by apply Single_place_rejected.
Qed.

Lemma rejected_place_unchanged_witness :
  result (Game.isValidPlacement 8 App.getTetrominoCells
            (Game.grid (Game.init 8)) 0 0 (Game.currentRotation (Game.init 8)))
  = Ok false
  /\ Game.placeTetromino 8 App.getTetrominoCells (Game.init 8) 0 0
     = Ok (Game.init 8)
  /\ result (Single.isValidPlacement (Single.grid Single.init) 7 3) = Ok false
  /\ Single.placeTetromino Single.init 7 3 = Ok Single.init.
Proof.
  split; [reflexivity|]. split.
  - apply (proj1 rejected_place_unchanged 8 App.getTetrominoCells (Game.init 8) 0 0).
    reflexivity.
  - split; [reflexivity|].
    apply (proj2 rejected_place_unchanged Single.init 7 3). reflexivity.
Defined.

(** ** An accepted placement changes the four cells of the shape *)

(** C4: on a board of side N, when the validator accepts,
    [placeTetromino] returns a state whose board is again of side N;
    every cell of the shape was Empty and is now 'T'; every position
    outside the shape reads as before; and in each component the shape
    consists of four distinct cells. *)
Theorem accepted_place_frame :
  (forall size cells s row col,
      wfGrid size (Game.grid s) ->
      result (Game.isValidPlacement size cells (Game.grid s) row col
                (Game.currentRotation s)) = Ok true ->
      exists s',
        Game.placeTetromino size cells s row col = Ok s'
        /\ wfGrid size (Game.grid s')
        /\ (forall r c, (r, c) ∈ cells row col (Game.currentRotation s) ->
              cellAt (Game.grid s) r c = Some Empty
              /\ cellAt (Game.grid s') r c = Some T)
        /\ (forall r c, (r, c) ∉ cells row col (Game.currentRotation s) ->
              cellAt (Game.grid s') r c = cellAt (Game.grid s) r c))
  /\ (forall row col rotation,
      fourDistinct (App.getTetrominoCells row col rotation)
      /\ fourDistinct (App2.getTetrominoCells row col rotation)
      /\ fourDistinct (PuzzleGame.getTetrominoCells row col rotation)
      /\ fourDistinct (Single.tetrominoCells row col))
  /\ (forall s row col,
      wfGrid 8 (Single.grid s) ->
      result (Single.isValidPlacement (Single.grid s) row col) = Ok true ->
      exists s',
        Single.placeTetromino s row col = Ok s'
        /\ wfGrid 8 (Single.grid s')
        /\ (forall r c, (r, c) ∈ Single.tetrominoCells row col ->
              cellAt (Single.grid s) r c = Some Empty
              /\ cellAt (Single.grid s') r c = Some T)
        /\ (forall r c, (r, c) ∉ Single.tetrominoCells row col ->
              cellAt (Single.grid s') r c = cellAt (Single.grid s) r c)).
Proof.
  split; [|split].
  - intros size cells s row col Hwf Hacc.
    destruct (Game_isValidPlacement_spec size cells (Game.grid s) row col
                (Game.currentRotation s) Hwf) as (b & Hb & Hiff).
    rewrite Hacc in Hb. injection Hb as <-.
    pose proof (proj1 Hiff eq_refl) as Hfits.
    destruct (Game_place_accepted _ _ _ _ _ Hacc) as (g' & Hg' & ->).
    destruct (forEachSet_wf size (Game.grid s)
                (cells row col (Game.currentRotation s)) Hwf)
      as (g'' & Hg'' & Hwf' & Hin & Hout).
    { eapply Forall_impl; [exact Hfits|]. apply fits_onBoard. }
    rewrite Hg' in Hg''. injection Hg'' as <-.
    eexists. split; [done|]. simpl. split; [done|]. split; [|done].
    intros r c Hrc. split; [|by apply (Hin (r, c))].
    by apply (proj1 (Forall_forall _ _) Hfits (r, c)).
  - intros. auto using App_fourDistinct, App2_fourDistinct,
      PuzzleGame_fourDistinct, Single_fourDistinct.
  - intros s row col Hwf Hacc.
    destruct (Single_isValidPlacement_spec (Single.grid s) row col Hwf)
      as (b & Hb & Hiff).
    rewrite Hacc in Hb. injection Hb as <-.
    pose proof (proj1 Hiff eq_refl) as Hfits.
    destruct (Single_place_accepted _ _ _ Hacc) as (g' & Hg' & ->).
    destruct (forEachSet_wf 8 (Single.grid s)
                (Single.tetrominoCells row col) Hwf)
      as (g'' & Hg'' & Hwf' & Hin & Hout).
    { eapply Forall_impl; [exact Hfits|]. apply fits_onBoard. }
    rewrite Hg' in Hg''. injection Hg'' as <-.
    eexists. split; [done|]. simpl. split; [done|]. split; [|done].
    intros r c Hrc. split; [|by apply (Hin (r, c))].
    by apply (proj1 (Forall_forall _ _) Hfits (r, c)).
Qed.

Lemma accepted_place_frame_witness :
  wfGrid 8 (Game.grid (Game.init 8))
  /\ result (Game.isValidPlacement 8 App.getTetrominoCells
               (Game.grid (Game.init 8)) 0 1
               (Game.currentRotation (Game.init 8))) = Ok true
  /\ (exists s',
        Game.placeTetromino 8 App.getTetrominoCells (Game.init 8) 0 1 = Ok s'
        /\ wfGrid 8 (Game.grid s')
        /\ (forall r c, (r, c) ∈ App.getTetrominoCells 0 1 R0 ->
              cellAt (Game.grid (Game.init 8)) r c = Some Empty
              /\ cellAt (Game.grid s') r c = Some T)
        /\ (forall r c, (r, c) ∉ App.getTetrominoCells 0 1 R0 ->
              cellAt (Game.grid s') r c = cellAt (Game.grid (Game.init 8)) r c))
  /\ wfGrid 8 (Single.grid Single.init)
  /\ result (Single.isValidPlacement (Single.grid Single.init) 0 1) = Ok true
  /\ (exists s',
        Single.placeTetromino Single.init 0 1 = Ok s'
        /\ wfGrid 8 (Single.grid s')
        /\ (forall r c, (r, c) ∈ Single.tetrominoCells 0 1 ->
              cellAt (Single.grid Single.init) r c = Some Empty
              /\ cellAt (Single.grid s') r c = Some T)
        /\ (forall r c, (r, c) ∉ Single.tetrominoCells 0 1 ->
              cellAt (Single.grid s') r c = cellAt (Single.grid Single.init) r c)).
Proof.
  assert (Hwf : wfGrid 8 (emptyGrid 8)) by (apply wfGrid_emptyGrid; lia).
  split; [exact Hwf|]. split; [reflexivity|]. split.
  - apply (proj1 accepted_place_frame 8 App.getTetrominoCells (Game.init 8) 0 1 Hwf).
    reflexivity.
  - split; [exact Hwf|]. split; [reflexivity|].
    apply (proj2 (proj2 accepted_place_frame) Single.init 0 1 Hwf). reflexivity.
Defined.

(** ** Undo and redo *)

(** C5: in every reachable state with a cursor above 0, [undo] returns
    a state, [redo] on that state returns a state, and the board of the
    latter is the board before the [undo]. *)
Theorem undo_then_redo_restores :
  (forall size cells s,
      Game.reachable size cells s -> 0 < Game.currentStep s ->
      exists s1 s2,
        Game.undo s = Ok s1 /\ Game.redo s1 = Ok s2
        /\ Game.grid s2 = Game.grid s)
  /\ (forall s,
      Single.reachable s -> 0 < Single.currentStep s ->
      exists s1 s2,
        Single.undo s = Ok s1 /\ Single.redo s1 = Ok s2
        /\ Single.grid s2 = Single.grid s).
Proof.
  split.
  - intros size cells s Hreach Hpos.
    apply GameInv.reachable_cursorInv in Hreach.
    destruct (GameInv.undo_redo s Hreach Hpos) as (s1 & Hu & Hr). eauto.
  - intros s Hreach Hpos.
    apply SingleInv.single_reachable_cursorInv in Hreach.
    destruct (SingleInv.single_undo_redo s Hreach Hpos) as (s1 & Hu & Hr). eauto.
Qed.

Lemma afterFirstPlace_reachable : App.reachable afterFirstPlace.
Proof.
  apply (Game.reach_step 8 App.getTetrominoCells App.init (Game.Place 0 1));
    [apply Game.reach_init|reflexivity].
Defined.

Lemma singleAfterFirstPlace_reachable : Single.reachable singleAfterFirstPlace.
Proof.
  apply (Single.reach_step Single.init (Single.Place 0 1));
    [apply Single.reach_init|reflexivity].
Defined.

Lemma undo_then_redo_restores_witness :
  (Game.reachable 8 App.getTetrominoCells afterFirstPlace
   /\ 0 < Game.currentStep afterFirstPlace
   /\ exists s1 s2,
       Game.undo afterFirstPlace = Ok s1 /\ Game.redo s1 = Ok s2
       /\ Game.grid s2 = Game.grid afterFirstPlace)
  /\ (Single.reachable singleAfterFirstPlace
      /\ 0 < Single.currentStep singleAfterFirstPlace
      /\ exists s1 s2,
          Single.undo singleAfterFirstPlace = Ok s1 /\ Single.redo s1 = Ok s2
          /\ Single.grid s2 = Single.grid singleAfterFirstPlace).
Proof.
  split.
  - split; [exact afterFirstPlace_reachable|]. split; [reflexivity|].
    apply (proj1 undo_then_redo_restores 8 App.getTetrominoCells afterFirstPlace
             afterFirstPlace_reachable).
    reflexivity.
  - split; [exact singleAfterFirstPlace_reachable|]. split; [reflexivity|].
    apply (proj2 undo_then_redo_restores singleAfterFirstPlace
             singleAfterFirstPlace_reachable).
    reflexivity.
Defined.

(** ** Placing after an undo truncates the history *)

(** C6: from a state whose cursor is a valid index below the last one,
    an accepted placement returns a state whose history is the
    snapshots up to and including the old cursor followed by the new
    board; the cursor is the new last index, and [redo] does nothing. *)
Theorem place_truncates_redo :
  (forall size cells s row col,
      0 <= Game.currentStep s < len (Game.history s) - 1 ->
      result (Game.isValidPlacement size cells (Game.grid s) row col
                (Game.currentRotation s)) = Ok true ->
      exists s',
        Game.placeTetromino size cells s row col = Ok s'
        /\ Game.history s'
           = take (Z.to_nat (Game.currentStep s + 1)) (Game.history s)
               ++ [Game.grid s']
        /\ len (Game.history s') = Game.currentStep s + 2
        /\ Game.currentStep s' = Game.currentStep s + 1
        /\ Game.currentStep s' = len (Game.history s') - 1
        /\ Game.redo s' = Ok s')
  /\ (forall s row col,
      0 <= Single.currentStep s < len (Single.history s) - 1 ->
      result (Single.isValidPlacement (Single.grid s) row col) = Ok true ->
      exists s',
        Single.placeTetromino s row col = Ok s'
        /\ Single.history s'
           = take (Z.to_nat (Single.currentStep s + 1)) (Single.history s)
               ++ [Single.grid s']
        /\ len (Single.history s') = Single.currentStep s + 2
        /\ Single.currentStep s' = Single.currentStep s + 1
        /\ Single.currentStep s' = len (Single.history s') - 1
        /\ Single.redo s' = Ok s').
Proof.
  split.
  - intros size cells s row col Hcur Hacc.
    destruct (Game_place_accepted _ _ _ _ _ Hacc) as (g' & _ & ->).
    eexists. split; [done|]. simpl.
    assert (Hslice : slice0 (Game.history s) (Game.currentStep s + 1)
                     = take (Z.to_nat (Game.currentStep s + 1)) (Game.history s)).
    { unfold slice0. destruct (Z.ltb_spec (Game.currentStep s + 1) 0); [lia|done]. }
    assert (Hlen : len (slice0 (Game.history s) (Game.currentStep s + 1) ++ [g'])
                   = Game.currentStep s + 2).
    { rewrite len_app, len_slice0 by lia. unfold len. simpl. lia. }
    split; [by rewrite Hslice|]. split; [done|]. split; [done|].
    split; [lia|].
    unfold Game.redo. simpl. rewrite Hlen.
    destruct (Z.ltb_spec (Game.currentStep s + 1) (Game.currentStep s + 2 - 1));
      [lia|done].
  - intros s row col Hcur Hacc.
    destruct (Single_place_accepted _ _ _ Hacc) as (g' & _ & ->).
    eexists. split; [done|]. simpl.
    assert (Hslice : slice0 (Single.history s) (Single.currentStep s + 1)
                     = take (Z.to_nat (Single.currentStep s + 1)) (Single.history s)).
    { unfold slice0. destruct (Z.ltb_spec (Single.currentStep s + 1) 0); [lia|done]. }
    assert (Hlen : len (slice0 (Single.history s) (Single.currentStep s + 1) ++ [g'])
                   = Single.currentStep s + 2).
    { rewrite len_app, len_slice0 by lia. unfold len. simpl. lia. }
    split; [by rewrite Hslice|]. split; [done|]. split; [done|].
    split; [lia|].
    unfold Single.redo. simpl. rewrite Hlen.
    destruct (Z.ltb_spec (Single.currentStep s + 1) (Single.currentStep s + 2 - 1));
      [lia|done].
Qed.

Lemma place_truncates_redo_witness :
  (0 <= Game.currentStep afterUndo < len (Game.history afterUndo) - 1
   /\ result (Game.isValidPlacement 8 App.getTetrominoCells (Game.grid afterUndo)
                3 3 (Game.currentRotation afterUndo)) = Ok true
   /\ exists s',
       Game.placeTetromino 8 App.getTetrominoCells afterUndo 3 3 = Ok s'
       /\ Game.history s'
          = take (Z.to_nat (Game.currentStep afterUndo + 1)) (Game.history afterUndo)
              ++ [Game.grid s']
       /\ len (Game.history s') = Game.currentStep afterUndo + 2
       /\ Game.currentStep s' = Game.currentStep afterUndo + 1
       /\ Game.currentStep s' = len (Game.history s') - 1
       /\ Game.redo s' = Ok s')
  /\ (0 <= Single.currentStep singleAfterUndo
        < len (Single.history singleAfterUndo) - 1
      /\ result (Single.isValidPlacement (Single.grid singleAfterUndo) 3 3) = Ok true
      /\ exists s',
          Single.placeTetromino singleAfterUndo 3 3 = Ok s'
          /\ Single.history s'
             = take (Z.to_nat (Single.currentStep singleAfterUndo + 1))
                 (Single.history singleAfterUndo)
                 ++ [Single.grid s']
          /\ len (Single.history s') = Single.currentStep singleAfterUndo + 2
          /\ Single.currentStep s' = Single.currentStep singleAfterUndo + 1
          /\ Single.currentStep s' = len (Single.history s') - 1
          /\ Single.redo s' = Ok s').
Proof.
  assert (H1 : 0 <= Game.currentStep afterUndo < len (Game.history afterUndo) - 1)
    by (vm_compute; split; [discriminate|reflexivity]).
  assert (H2 : 0 <= Single.currentStep singleAfterUndo
               < len (Single.history singleAfterUndo) - 1)
    by (vm_compute; split; [discriminate|reflexivity]).
  split.
  - split; [exact H1|]. split; [reflexivity|].
    apply (proj1 place_truncates_redo 8 App.getTetrominoCells afterUndo 3 3 H1).
    reflexivity.
  - split; [exact H2|]. split; [reflexivity|].
    apply (proj2 place_truncates_redo singleAfterUndo 3 3 H2).
    reflexivity.
Defined.

(** ** Undo and redo at the ends of the history *)

(** C7: [undo] returns the state unchanged when the cursor is 0, and
    [redo] when the cursor is the last index; so does [undo] on the
    initial state, whose cursor is 0, and [redo] on the state after one
    placement from the initial state, whose cursor is the last index;
    and in every reachable state [undo] and [redo] return a state. *)
Theorem undo_redo_at_the_ends :
  (forall s, Game.currentStep s = 0 -> Game.undo s = Ok s)
  /\ (forall s, Game.currentStep s = len (Game.history s) - 1 -> Game.redo s = Ok s)
  /\ (forall size,
        Game.currentStep (Game.init size) = 0
        /\ Game.undo (Game.init size) = Ok (Game.init size))
  /\ (forall size cells row col s1,
        Game.placeTetromino size cells (Game.init size) row col = Ok s1 ->
        Game.currentStep s1 = len (Game.history s1) - 1
        /\ Game.redo s1 = Ok s1)
  /\ (forall size cells s,
        Game.reachable size cells s ->
        (exists s', Game.undo s = Ok s') /\ (exists s', Game.redo s = Ok s'))
  /\ (forall s, Single.currentStep s = 0 -> Single.undo s = Ok s)
  /\ (forall s, Single.currentStep s = len (Single.history s) - 1 ->
        Single.redo s = Ok s)
  /\ (Single.currentStep Single.init = 0
      /\ Single.undo Single.init = Ok Single.init)
  /\ (forall row col s1,
        Single.placeTetromino Single.init row col = Ok s1 ->
        Single.currentStep s1 = len (Single.history s1) - 1
        /\ Single.redo s1 = Ok s1)
  /\ (forall s,
        Single.reachable s ->
        (exists s', Single.undo s = Ok s') /\ (exists s', Single.redo s = Ok s')).
Proof.
  assert (Hundo : forall s, Game.currentStep s = 0 -> Game.undo s = Ok s)
    by (intros s Hs; unfold Game.undo; by rewrite Hs).
  assert (Hredo : forall s, Game.currentStep s = len (Game.history s) - 1 ->
                            Game.redo s = Ok s)
    by (intros s Hs; unfold Game.redo; by rewrite <- Hs, Z.ltb_irrefl).
  assert (Hundo1 : forall s, Single.currentStep s = 0 -> Single.undo s = Ok s)
    by (intros s Hs; unfold Single.undo; by rewrite Hs).
  assert (Hredo1 : forall s, Single.currentStep s = len (Single.history s) - 1 ->
                             Single.redo s = Ok s)
    by (intros s Hs; unfold Single.redo; by rewrite <- Hs, Z.ltb_irrefl).
  split; [exact Hundo|]. split; [exact Hredo|]. split; [by auto|].
  split.
  { intros size cells row col s1 Hplace.
    assert (Hlast : Game.currentStep s1 = len (Game.history s1) - 1); [|by auto].
    destruct (result (Game.isValidPlacement size cells (Game.grid (Game.init size))
                        row col (Game.currentRotation (Game.init size))))
      as [[]|] eqn:Hv.
    - destruct (Game_place_accepted _ _ _ _ _ Hv) as (g' & _ & Heq).
      rewrite Heq in Hplace. by injection Hplace as <-.
    - rewrite (Game_place_rejected _ _ _ _ _ Hv) in Hplace.
      by injection Hplace as <-.
    - unfold Game.placeTetromino in Hplace. by rewrite Hv in Hplace. }
  split.
  { intros size cells s Hreach%GameInv.reachable_cursorInv.
    split; [by apply GameInv.undo_total|by apply GameInv.redo_total]. }
  split; [exact Hundo1|]. split; [exact Hredo1|]. split; [by auto|].
  split.
  { intros row col s1 Hplace.
    assert (Hlast : Single.currentStep s1 = len (Single.history s1) - 1); [|by auto].
    destruct (result (Single.isValidPlacement (Single.grid Single.init) row col))
      as [[]|] eqn:Hv.
    - destruct (Single_place_accepted _ _ _ Hv) as (g' & _ & Heq).
      rewrite Heq in Hplace. by injection Hplace as <-.
    - rewrite (Single_place_rejected _ _ _ Hv) in Hplace.
      by injection Hplace as <-.
    - unfold Single.placeTetromino in Hplace. by rewrite Hv in Hplace. }
  intros s Hreach%SingleInv.single_reachable_cursorInv.
  split; [by apply SingleInv.single_undo_total|by apply SingleInv.single_redo_total].
Qed.

Lemma undo_redo_at_the_ends_witness :
  (Game.currentStep (Game.init 8) = 0
   /\ Game.undo (Game.init 8) = Ok (Game.init 8))
  /\ (Game.currentStep afterFirstPlace = len (Game.history afterFirstPlace) - 1
      /\ Game.redo afterFirstPlace = Ok afterFirstPlace)
  /\ (Game.placeTetromino 8 App.getTetrominoCells (Game.init 8) 0 1
      = Ok afterFirstPlace
      /\ Game.currentStep afterFirstPlace = len (Game.history afterFirstPlace) - 1
      /\ Game.redo afterFirstPlace = Ok afterFirstPlace)
  /\ (Game.reachable 8 App.getTetrominoCells afterFirstPlace
      /\ (exists s', Game.undo afterFirstPlace = Ok s')
      /\ (exists s', Game.redo afterFirstPlace = Ok s'))
  /\ (Single.currentStep Single.init = 0
      /\ Single.undo Single.init = Ok Single.init)
  /\ (Single.currentStep singleAfterFirstPlace
      = len (Single.history singleAfterFirstPlace) - 1
      /\ Single.redo singleAfterFirstPlace = Ok singleAfterFirstPlace)
  /\ (Single.placeTetromino Single.init 0 1 = Ok singleAfterFirstPlace
      /\ Single.currentStep singleAfterFirstPlace
         = len (Single.history singleAfterFirstPlace) - 1
      /\ Single.redo singleAfterFirstPlace = Ok singleAfterFirstPlace)
  /\ (Single.reachable singleAfterFirstPlace
      /\ (exists s', Single.undo singleAfterFirstPlace = Ok s')
      /\ (exists s', Single.redo singleAfterFirstPlace = Ok s')).
Proof.
  destruct undo_redo_at_the_ends
    as (Hu & Hr & _ & Hp & Ht & Hu1 & Hr1 & _ & Hp1 & Ht1).
  split; [split; [reflexivity|apply (Hu (Game.init 8)); reflexivity]|].
  split; [split; [reflexivity|apply (Hr afterFirstPlace); reflexivity]|].
  split; [split; [reflexivity|
                  apply (Hp 8 App.getTetrominoCells 0 1 afterFirstPlace); reflexivity]|].
  split; [split; [exact afterFirstPlace_reachable|
                  apply (Ht 8 App.getTetrominoCells afterFirstPlace
                           afterFirstPlace_reachable)]|].
  split; [split; [reflexivity|apply (Hu1 Single.init); reflexivity]|].
  split; [split; [reflexivity|apply (Hr1 singleAfterFirstPlace); reflexivity]|].
  split; [split; [reflexivity|apply (Hp1 0 1 singleAfterFirstPlace); reflexivity]|].
  split; [exact singleAfterFirstPlace_reachable|].
  apply (Ht1 singleAfterFirstPlace singleAfterFirstPlace_reachable).
Defined.

(** ** Reset *)

(** C8: from every state, [reset] gives the state whose grid is the
    empty board of side N, whose history holds that board alone and
    whose cursor is 0; the empty board is a square of side N all of
    whose cells are Empty. *)
Theorem reset_gives_empty_session :
  (forall size s,
      Game.grid (Game.reset size s) = emptyGrid size
      /\ Game.history (Game.reset size s) = [emptyGrid size]
      /\ Game.currentStep (Game.reset size s) = 0)
  /\ (forall s,
      Single.grid (Single.reset s) = emptyGrid 8
      /\ Single.history (Single.reset s) = [emptyGrid 8]
      /\ Single.currentStep (Single.reset s) = 0)
  /\ (forall size,
      0 <= size ->
      wfGrid size (emptyGrid size)
      /\ occupied (emptyGrid size) = []
      /\ forall r c, 0 <= r < size -> 0 <= c < size ->
           cellAt (emptyGrid size) r c = Some Empty).
Proof.
  split; [done|]. split; [done|].
  intros size Hsize. split; [by apply wfGrid_emptyGrid|].
  split; [|intros; by apply cellAt_emptyGrid].
  destruct (occupied (emptyGrid size)) as [|[r c] rest] eqn:E; [done|].
  assert (Hin : (r, c) ∈ occupied (emptyGrid size)) by (rewrite E; left).
  apply elem_of_occupied in Hin.
  pose proof (wfGrid_emptyGrid size Hsize) as Hwf.
  assert (Hrange : 0 <= r < size /\ 0 <= c < size).
  { unfold cellAt in Hin. destruct (index (emptyGrid size) r) as [row|] eqn:Hr; [|done].
    pose proof (wfGrid_row _ _ _ _ Hwf Hr) as Hlen.
    apply index_Some in Hr, Hin. destruct Hwf as [Hg _]. lia. }
  rewrite cellAt_emptyGrid in Hin by tauto. done.
Qed.

Lemma reset_gives_empty_session_witness :
  0 <= 6
  /\ wfGrid 6 (emptyGrid 6)
  /\ occupied (emptyGrid 6) = []
  /\ cellAt (emptyGrid 6) 5 0 = Some Empty.
Proof.
  assert (H6 : 0 <= 6) by lia.
  split; [exact H6|].
  destruct (proj2 (proj2 reset_gives_empty_session) 6 H6) as (Hwf & Hocc & Hcell).
  split; [exact Hwf|]. split; [exact Hocc|]. apply Hcell; lia.
Defined.

(** ** The cursor invariant *)

(** C9: in every state reachable from the initial state by placements,
    undo, redo, reset and changes of rotation, the cursor is a valid
    index of the history and the grid is the snapshot at the cursor. *)
Theorem reachable_cursor_valid :
  (forall size cells s,
      Game.reachable size cells s ->
      0 <= Game.currentStep s <= len (Game.history s) - 1
      /\ index (Game.history s) (Game.currentStep s) = Some (Game.grid s))
  /\ (forall s,
      Single.reachable s ->
      0 <= Single.currentStep s <= len (Single.history s) - 1
      /\ index (Single.history s) (Single.currentStep s) = Some (Single.grid s)).
Proof.
  split.
  - intros size cells s Hreach%GameInv.reachable_cursorInv.
    split; [by apply GameInv.cursorInv_range|done].
  - intros s Hreach%SingleInv.single_reachable_cursorInv.
    split; [by apply SingleInv.single_cursorInv_range|done].
Qed.

Lemma reachable_cursor_valid_witness :
  (Game.reachable 8 App.getTetrominoCells afterFirstPlace
   /\ 0 <= Game.currentStep afterFirstPlace <= len (Game.history afterFirstPlace) - 1
   /\ index (Game.history afterFirstPlace) (Game.currentStep afterFirstPlace)
      = Some (Game.grid afterFirstPlace))
  /\ (Single.reachable singleAfterFirstPlace
      /\ 0 <= Single.currentStep singleAfterFirstPlace
           <= len (Single.history singleAfterFirstPlace) - 1
      /\ index (Single.history singleAfterFirstPlace)
           (Single.currentStep singleAfterFirstPlace)
         = Some (Single.grid singleAfterFirstPlace)).
Proof.
  split.
  - split; [exact afterFirstPlace_reachable|].
    apply (proj1 reachable_cursor_valid 8 App.getTetrominoCells afterFirstPlace
             afterFirstPlace_reachable).
  - split; [exact singleAfterFirstPlace_reachable|].
    apply (proj2 reachable_cursor_valid singleAfterFirstPlace
             singleAfterFirstPlace_reachable).
Defined.

(** ** The grid reads of the hand-written validator *)

Lemma reads_ret {A : Type} (a : A) : reads (ret a) = [].
Proof. done. Qed.

Lemma Forall_reads_andAlso (P : Z * Z -> Prop) (a b : Traced bool) :
  Forall P (reads a) -> Forall P (reads b) -> Forall P (reads (a &&& b)).
Proof.
  intros Ha Hb. rewrite reads_andAlso. apply Forall_app. split; [done|].
  by destruct (result a) as [[]|].
Qed.

(** The reads stay within the rows of the board and within one column
    of the anchor. *)
Lemma Single_reads_near g row col :
  Forall (fun rc => 0 <= rc.1 < 8 /\ col - 1 <= rc.2 <= col + 1)
         (reads (Single.isValidPlacement g row col)).
Proof.
  unfold Single.isValidPlacement.
  destruct (Z.ltb_spec row 0) as [Ha|Ha]; [constructor|].
  destruct (Z.leb_spec 7 row) as [Hb|Hb]; [constructor|].
  destruct (Z.ltb_spec col 0) as [Hc|Hc]; [constructor|].
  destruct (Z.leb_spec 8 col) as [Hd|Hd]; [constructor|].
  simpl.
  repeat apply Forall_reads_andAlso;
    rewrite ?reads_notCell, ?reads_ret;
    repeat constructor; simpl; lia.
Qed.

Example reads_at_corner :
  reads (Single.isValidPlacement (emptyGrid 8) 0 0)
  = [(0, 0); (1, 0); (1, -1); (1, 1)]
  /\ result (Single.isValidPlacement (emptyGrid 8) 0 0) = Ok false
  /\ cellAt (emptyGrid 8) 1 (-1) = None.
Proof. by vm_compute. Qed.

(** C10, as stated: at anchor (0, 0) on the empty board the validator
    reads [grid[1][-1]], a column outside the array. *)
Lemma reads_off_board_at_corner :
  ~ (forall g row col,
        wfGrid 8 g -> 0 <= row < 8 -> 0 <= col < 8 -> readsOnBoard g row col).
Proof.
  intros Hall.
  assert (Hwf : wfGrid 8 (emptyGrid 8)) by (apply wfGrid_emptyGrid; lia).
  specialize (Hall (emptyGrid 8) 0 0 Hwf ltac:(lia) ltac:(lia)).
  unfold readsOnBoard in Hall.
  rewrite (proj1 reads_at_corner) in Hall.
  assert (Hbad : onBoard 8 (1, -1)).
  { apply (proj1 (Forall_forall _ _) Hall). rewrite !elem_of_cons. auto. }
  destruct Hbad as [_ Hcol]. simpl in Hcol. lia.
Qed.

(** C10, amended: in [src/unnamed/part_001], on every 8x8 board and for
    every anchor with row and column in [0, 8), [isValidPlacement]
    returns a boolean without throwing; every grid read has its row
    index in [0, 8) and its column index in [col - 1, col + 1]; when
    0 < col < 7 every read is at a position of the board; when col is 0
    or 7 the validator rejects. *)
Theorem single_validator_reads :
  forall g row col,
    wfGrid 8 g -> 0 <= row < 8 -> 0 <= col < 8 ->
    (exists b, result (Single.isValidPlacement g row col) = Ok b
               /\ (col = 0 \/ col = 7 -> b = false))
    /\ Forall (fun rc => 0 <= rc.1 < 8 /\ col - 1 <= rc.2 <= col + 1)
              (reads (Single.isValidPlacement g row col))
    /\ (0 < col < 7 -> readsOnBoard g row col).
Proof.
  intros g row col Hwf Hrow Hcol.
  pose proof (Single_reads_near g row col) as Hnear.
  split; [|split; [exact Hnear|]].
  - destruct (Single_isValidPlacement_spec g row col Hwf) as (b & Hb & Hiff).
    exists b. split; [done|]. intros Hedge.
    destruct b; [|done]. exfalso.
    pose proof (proj1 Hiff eq_refl) as Hfits.
    unfold Single.tetrominoCells in Hfits.
    rewrite !Forall_cons in Hfits. unfold fits in Hfits. simpl in Hfits. lia.
  - intros Hmid. unfold readsOnBoard.
    eapply Forall_impl; [exact Hnear|]. unfold onBoard. simpl. lia.
Qed.

Lemma single_validator_reads_witness :
  wfGrid 8 (emptyGrid 8) /\ 0 <= 3 < 8 /\ 0 <= 7 < 8
  /\ (exists b, result (Single.isValidPlacement (emptyGrid 8) 3 7) = Ok b
                /\ b = false)
  /\ Forall (fun rc => 0 <= rc.1 < 8 /\ 7 - 1 <= rc.2 <= 7 + 1)
            (reads (Single.isValidPlacement (emptyGrid 8) 3 7))
  /\ Forall (fun rc => 0 <= rc.1 < 8 /\ 3 - 1 <= rc.2 <= 3 + 1)
            (reads (Single.isValidPlacement (emptyGrid 8) 3 3))
  /\ readsOnBoard (emptyGrid 8) 3 3.
Proof.
  assert (Hwf : wfGrid 8 (emptyGrid 8)) by (apply wfGrid_emptyGrid; lia).
  assert (H3 : 0 <= 3 < 8) by lia.
  assert (H7 : 0 <= 7 < 8) by lia.
  split; [exact Hwf|]. split; [exact H3|]. split; [exact H7|].
  destruct (single_validator_reads (emptyGrid 8) 3 7 Hwf H3 H7)
    as ((b & Hb & Hedge) & Hnear7 & _).
  destruct (single_validator_reads (emptyGrid 8) 3 3 Hwf H3 H3)
    as (_ & Hnear3 & Hmid).
  split; [exists b; split; [exact Hb|apply Hedge; right; reflexivity]|].
  split; [exact Hnear7|]. split; [exact Hnear3|].
  apply Hmid. lia.
Defined.

(** * Further properties of the components *)

(** ** No event throws, and boards keep their size *)

(** X1: in a component of side [size >= 0] every event raised in a
    reachable state yields a state: no handler throws and none leaves
    the component without a grid.  The same holds in
    [src/unnamed/part_001]. *)
Theorem events_never_throw :
  (forall size cells s op,
      0 <= size -> Game.reachable size cells s ->
      exists s', Game.step size cells s op = Ok s')
  /\ (forall s op,
      Single.reachable s -> exists s', Single.step s op = Ok s').
Proof.
  split.
  - intros size cells s op Hsize Hreach. by apply GameInv.step_total.
  - intros s op Hreach. by apply SingleInv.single_step_total.
Qed.

Lemma events_never_throw_witness :
  0 <= 8
  /\ Game.reachable 8 App.getTetrominoCells afterFirstPlace
  /\ (exists s', Game.step 8 App.getTetrominoCells afterFirstPlace
                   (Game.Place 0 1) = Ok s')
  /\ Single.reachable singleAfterFirstPlace
  /\ (exists s', Single.step singleAfterFirstPlace Single.Undo = Ok s').
Proof.
  assert (H8 : 0 <= 8) by lia.
  split; [exact H8|]. split; [exact afterFirstPlace_reachable|].
  split.
  - apply (proj1 events_never_throw 8 App.getTetrominoCells afterFirstPlace
             (Game.Place 0 1) H8 afterFirstPlace_reachable).
  - split; [exact singleAfterFirstPlace_reachable|].
    apply (proj2 events_never_throw singleAfterFirstPlace Single.Undo
             singleAfterFirstPlace_reachable).
Defined.

(** X2: in every reachable state the grid and every snapshot of the
    history are square boards of the side the component was created
    with. *)
Theorem boards_stay_square :
  (forall size cells s,
      0 <= size -> Game.reachable size cells s ->
      wfGrid size (Game.grid s)
      /\ forall i g, index (Game.history s) i = Some g -> wfGrid size g)
  /\ (forall s,
      Single.reachable s ->
      wfGrid 8 (Single.grid s)
      /\ forall i g, index (Single.history s) i = Some g -> wfGrid 8 g).
Proof.
  split.
  - intros size cells s Hsize Hreach.
    pose proof (GameInv.reachable_boardsInv size cells s Hsize Hreach) as Hinv.
    split; [apply Hinv|]. intros i g. by apply GameInv.boardsInv_index.
  - intros s Hreach.
    pose proof (SingleInv.single_reachable_boardsInv s Hreach) as Hinv.
    split; [apply Hinv|]. intros i g. by apply SingleInv.single_boardsInv_index.
Qed.

Lemma boards_stay_square_witness :
  0 <= 8
  /\ Game.reachable 8 App.getTetrominoCells afterFirstPlace
  /\ wfGrid 8 (Game.grid afterFirstPlace)
  /\ index (Game.history afterFirstPlace) 0 = Some (emptyGrid 8)
  /\ wfGrid 8 (emptyGrid 8)
  /\ Single.reachable singleAfterFirstPlace
  /\ wfGrid 8 (Single.grid singleAfterFirstPlace).
Proof.
  assert (H8 : 0 <= 8) by lia.
  destruct (proj1 boards_stay_square 8 App.getTetrominoCells afterFirstPlace
              H8 afterFirstPlace_reachable) as [Hg Hh].
  destruct (proj2 boards_stay_square singleAfterFirstPlace
              singleAfterFirstPlace_reachable) as [Hg1 _].
  assert (H0 : index (Game.history afterFirstPlace) 0 = Some (emptyGrid 8))
    by reflexivity.
  split; [exact H8|]. split; [exact afterFirstPlace_reachable|].
  split; [exact Hg|]. split; [exact H0|].
  split; [exact (Hh 0 (emptyGrid 8) H0)|].
  split; [exact singleAfterFirstPlace_reachable|exact Hg1].
Defined.

(** ** Round trips through the history *)

(** X3: in a reachable state, an accepted placement followed by [undo]
    gives back the board, the cursor and the rotation from before the
    placement; the snapshot of the placement stays in the history, one
    place after the cursor. *)
Theorem place_then_undo :
  (forall size cells s row col s',
      Game.reachable size cells s ->
      result (Game.isValidPlacement size cells (Game.grid s) row col
                (Game.currentRotation s)) = Ok true ->
      Game.placeTetromino size cells s row col = Ok s' ->
      exists s'',
        Game.undo s' = Ok s''
        /\ Game.grid s'' = Game.grid s
        /\ Game.currentStep s'' = Game.currentStep s
        /\ Game.currentRotation s'' = Game.currentRotation s
        /\ index (Game.history s'') (Game.currentStep s + 1) = Some (Game.grid s'))
  /\ (forall s row col s',
      Single.reachable s ->
      result (Single.isValidPlacement (Single.grid s) row col) = Ok true ->
      Single.placeTetromino s row col = Ok s' ->
      exists s'',
        Single.undo s' = Ok s''
        /\ Single.grid s'' = Single.grid s
        /\ Single.currentStep s'' = Single.currentStep s
        /\ index (Single.history s'') (Single.currentStep s + 1)
           = Some (Single.grid s')).
Proof.
  split.
  - intros size cells s row col s' Hreach%GameInv.reachable_cursorInv Hacc Hplace.
    pose proof (GameInv.cursorInv_range _ Hreach) as Hrange.
    destruct (Game_place_accepted _ _ _ _ _ Hacc) as (g' & _ & Heq).
    rewrite Heq in Hplace. injection Hplace as <-.
    unfold Game.undo. simpl.
    destruct (Z.ltb_spec 0 (Game.currentStep s + 1)) as [_|Hle]; [|lia].
    replace (Game.currentStep s + 1 - 1) with (Game.currentStep s) by lia.
    rewrite record_keeps by lia. rewrite Hreach.
    eexists. split; [done|]. simpl. split; [done|]. split; [done|].
    split; [done|]. by apply (record_index _ _ (Game.grid s)).
  - intros s row col s' Hreach%SingleInv.single_reachable_cursorInv Hacc Hplace.
    pose proof (SingleInv.single_cursorInv_range _ Hreach) as Hrange.
    destruct (Single_place_accepted _ _ _ Hacc) as (g' & _ & Heq).
    rewrite Heq in Hplace. injection Hplace as <-.
    unfold Single.undo. simpl.
    destruct (Z.ltb_spec 0 (Single.currentStep s + 1)) as [_|Hle]; [|lia].
    replace (Single.currentStep s + 1 - 1) with (Single.currentStep s) by lia.
    rewrite record_keeps by lia. rewrite Hreach.
    eexists. split; [done|]. simpl. split; [done|]. split; [done|].
    by apply (record_index _ _ (Single.grid s)).
Qed.

Lemma place_then_undo_witness :
  Game.reachable 8 App.getTetrominoCells afterFirstPlace
  /\ result (Game.isValidPlacement 8 App.getTetrominoCells
               (Game.grid afterFirstPlace) 0 4
               (Game.currentRotation afterFirstPlace)) = Ok true
  /\ (exists s' s'',
        Game.placeTetromino 8 App.getTetrominoCells afterFirstPlace 0 4 = Ok s'
        /\ Game.undo s' = Ok s''
        /\ Game.grid s'' = Game.grid afterFirstPlace
        /\ Game.currentStep s'' = Game.currentStep afterFirstPlace
        /\ Game.currentRotation s'' = Game.currentRotation afterFirstPlace
        /\ index (Game.history s'') (Game.currentStep afterFirstPlace + 1)
           = Some (Game.grid s'))
  /\ Single.reachable singleAfterFirstPlace
  /\ result (Single.isValidPlacement (Single.grid singleAfterFirstPlace) 0 4)
     = Ok true
  /\ (exists s' s'',
        Single.placeTetromino singleAfterFirstPlace 0 4 = Ok s'
        /\ Single.undo s' = Ok s''
        /\ Single.grid s'' = Single.grid singleAfterFirstPlace
        /\ Single.currentStep s'' = Single.currentStep singleAfterFirstPlace
        /\ index (Single.history s'') (Single.currentStep singleAfterFirstPlace + 1)
           = Some (Single.grid s')).
Proof.
  split; [exact afterFirstPlace_reachable|]. split; [reflexivity|]. split.
  - eexists.
    destruct (proj1 place_then_undo 8 App.getTetrominoCells afterFirstPlace 0 4 _
                afterFirstPlace_reachable eq_refl eq_refl) as (s'' & H).
    exists s''. split; [reflexivity|exact H].
  - split; [exact singleAfterFirstPlace_reachable|]. split; [reflexivity|].
    eexists.
    destruct (proj2 place_then_undo singleAfterFirstPlace 0 4 _
                singleAfterFirstPlace_reachable eq_refl eq_refl) as (s'' & H).
    exists s''. split; [reflexivity|exact H].
Defined.

(** X4: in a reachable state with snapshots after the cursor, [redo]
    followed by [undo] gives back the very same state. *)
Theorem redo_then_undo :
  (forall size cells s,
      Game.reachable size cells s ->
      Game.currentStep s < len (Game.history s) - 1 ->
      exists s1, Game.redo s = Ok s1 /\ Game.undo s1 = Ok s
                 /\ Game.currentStep s1 = Game.currentStep s + 1)
  /\ (forall s,
      Single.reachable s ->
      Single.currentStep s < len (Single.history s) - 1 ->
      exists s1, Single.redo s = Ok s1 /\ Single.undo s1 = Ok s
                 /\ Single.currentStep s1 = Single.currentStep s + 1).
Proof.
  split.
  - intros size cells s Hinv%GameInv.reachable_cursorInv Hlt.
    pose proof (GameInv.cursorInv_range _ Hinv) as Hrange.
    destruct (GameInv.redo_cases s) as [[Hle _]|[_ Hr]]; [lia|].
    destruct (index_is_Some (Game.history s) (Game.currentStep s + 1))
      as [g Hg]; [lia|].
    rewrite Hg in Hr. eexists. split; [exact Hr|]. split; [|done].
    unfold Game.undo. simpl.
    destruct (Z.ltb_spec 0 (Game.currentStep s + 1)) as [_|Hle]; [|lia].
    replace (Game.currentStep s + 1 - 1) with (Game.currentStep s) by lia.
    rewrite Hinv. by destruct s.
  - intros s Hinv%SingleInv.single_reachable_cursorInv Hlt.
    pose proof (SingleInv.single_cursorInv_range _ Hinv) as Hrange.
    destruct (SingleInv.single_redo_cases s) as [[Hle _]|[_ Hr]]; [lia|].
    destruct (index_is_Some (Single.history s) (Single.currentStep s + 1))
      as [g Hg]; [lia|].
    rewrite Hg in Hr. eexists. split; [exact Hr|]. split; [|done].
    unfold Single.undo. simpl.
    destruct (Z.ltb_spec 0 (Single.currentStep s + 1)) as [_|Hle]; [|lia].
    replace (Single.currentStep s + 1 - 1) with (Single.currentStep s) by lia.
    rewrite Hinv. by destruct s.
Qed.

Lemma afterUndo_reachable : App.reachable afterUndo.
Proof.
  apply (Game.reach_step 8 App.getTetrominoCells afterFirstPlace Game.Undo);
    [exact afterFirstPlace_reachable|reflexivity].
Defined.

Lemma singleAfterUndo_reachable : Single.reachable singleAfterUndo.
Proof.
  apply (Single.reach_step singleAfterFirstPlace Single.Undo);
    [exact singleAfterFirstPlace_reachable|reflexivity].
Defined.

Lemma redo_then_undo_witness :
  Game.reachable 8 App.getTetrominoCells afterUndo
  /\ Game.currentStep afterUndo < len (Game.history afterUndo) - 1
  /\ (exists s1, Game.redo afterUndo = Ok s1 /\ Game.undo s1 = Ok afterUndo
                 /\ Game.currentStep s1 = Game.currentStep afterUndo + 1)
  /\ Single.reachable singleAfterUndo
  /\ Single.currentStep singleAfterUndo < len (Single.history singleAfterUndo) - 1
  /\ (exists s1, Single.redo singleAfterUndo = Ok s1
                 /\ Single.undo s1 = Ok singleAfterUndo
                 /\ Single.currentStep s1 = Single.currentStep singleAfterUndo + 1).
Proof.
  split; [exact afterUndo_reachable|]. split; [reflexivity|]. split.
  - apply (proj1 redo_then_undo 8 App.getTetrominoCells afterUndo
             afterUndo_reachable). reflexivity.
  - split; [exact singleAfterUndo_reachable|]. split; [reflexivity|].
    apply (proj2 redo_then_undo singleAfterUndo singleAfterUndo_reachable).
    reflexivity.
Defined.

(** ** The first snapshot is the empty board *)

Lemma Game_first_snapshot_step size cells s op s' :
  Game.cursorInv s ->
  index (Game.history s) 0 = Some (emptyGrid size) ->
  Game.step size cells s op = Ok s' ->
  index (Game.history s') 0 = Some (emptyGrid size).
Proof.
  intros Hinv H0. pose proof (GameInv.cursorInv_range _ Hinv) as Hrange.
  destruct op as [row col| | | |rotation]; simpl.
  - destruct (result (Game.isValidPlacement size cells (Game.grid s) row col
                        (Game.currentRotation s))) as [[]|] eqn:Hv.
    + destruct (Game_place_accepted _ _ _ _ _ Hv) as (g' & _ & ->).
      intros [= <-]. simpl. rewrite record_keeps by lia. done.
    + rewrite (Game_place_rejected _ _ _ _ _ Hv). by intros [= <-].
    + unfold Game.placeTetromino. by rewrite Hv.
  - destruct (GameInv.undo_cases s) as [[_ ->]|[_ Hu]]; [by intros [= <-]|].
    destruct (index (Game.history s) (Game.currentStep s - 1)) as [g|] eqn:E;
      rewrite Hu; [|done].
    by intros [= <-].
  - destruct (GameInv.redo_cases s) as [[_ ->]|[_ Hu]]; [by intros [= <-]|].
    destruct (index (Game.history s) (Game.currentStep s + 1)) as [g|] eqn:E;
      rewrite Hu; [|done].
    by intros [= <-].
  - by intros [= <-].
  - by intros [= <-].
Qed.

Lemma Game_first_snapshot size cells s :
  Game.reachable size cells s ->
  index (Game.history s) 0 = Some (emptyGrid size).
Proof.
  induction 1 as [|s op s' Hreach IH Hstep]; [done|].
  eapply Game_first_snapshot_step; [|exact IH|exact Hstep].
  by eapply GameInv.reachable_cursorInv.
Qed.

Lemma undoTimes_to_start n : forall s,
  Game.cursorInv s -> Game.currentStep s = Z.of_nat n ->
  exists s', undoTimes n s = Ok s'
             /\ Game.cursorInv s'
             /\ Game.currentStep s' = 0
             /\ Game.history s' = Game.history s
             /\ Game.currentRotation s' = Game.currentRotation s.
Proof.
  induction n as [|n IH]; intros s Hinv Hcur; simpl.
  - exists s. by rewrite Hcur.
  - pose proof (GameInv.cursorInv_range _ Hinv) as Hrange.
    destruct (GameInv.undo_cases s) as [[Hle _]|[_ Hu]]; [lia|].
    destruct (index_is_Some (Game.history s) (Game.currentStep s - 1))
      as [g Hg]; [lia|].
    rewrite Hg in Hu. rewrite Hu. simpl.
    destruct (IH {| Game.grid := g;
                    Game.history := Game.history s;
                    Game.currentStep := Game.currentStep s - 1;
                    Game.currentRotation := Game.currentRotation s |})
      as (s' & Hs' & Hinv' & Hcur' & Hhist' & Hrot'); [done|simpl; lia|].
    exists s'. by rewrite Hs'.
Qed.

(** X5: in every reachable state the first snapshot of the history is
    the empty board, and pressing Undo as many times as the cursor
    says leads to it: the grid is empty, the cursor 0, the history and
    the rotation untouched. *)
Theorem undo_all_the_way :
  forall size cells s,
    Game.reachable size cells s ->
    index (Game.history s) 0 = Some (emptyGrid size)
    /\ exists s',
        undoTimes (Z.to_nat (Game.currentStep s)) s = Ok s'
        /\ Game.grid s' = emptyGrid size
        /\ Game.currentStep s' = 0
        /\ Game.history s' = Game.history s
        /\ Game.currentRotation s' = Game.currentRotation s.
Proof.
  intros size cells s Hreach.
  pose proof (Game_first_snapshot _ _ _ Hreach) as H0.
  pose proof (GameInv.reachable_cursorInv _ _ _ Hreach) as Hinv.
  pose proof (GameInv.cursorInv_range _ Hinv) as Hrange.
  split; [done|].
  destruct (undoTimes_to_start (Z.to_nat (Game.currentStep s)) s Hinv)
    as (s' & Hs' & Hinv' & Hcur' & Hhist' & Hrot'); [lia|].
  exists s'. split; [done|]. split; [|done].
  unfold Game.cursorInv in Hinv'. rewrite Hcur', Hhist', H0 in Hinv'.
  by injection Hinv'.
Qed.

Lemma afterThreePlaces_reachable : App.reachable afterThreePlaces.
Proof.
  eapply (Game.reach_step 8 App.getTetrominoCells _ (Game.Place 2 1)).
  - eapply (Game.reach_step 8 App.getTetrominoCells _ (Game.Place 0 4)).
    + exact afterFirstPlace_reachable.
    + reflexivity.
  - reflexivity.
Defined.

Lemma undo_all_the_way_witness :
  Game.reachable 8 App.getTetrominoCells afterThreePlaces
  /\ Game.currentStep afterThreePlaces = 3
  /\ index (Game.history afterThreePlaces) 0 = Some (emptyGrid 8)
  /\ exists s',
      undoTimes 3 afterThreePlaces = Ok s'
      /\ Game.grid s' = emptyGrid 8
      /\ Game.currentStep s' = 0
      /\ Game.history s' = Game.history afterThreePlaces
      /\ Game.currentRotation s' = Game.currentRotation afterThreePlaces.
Proof.
  split; [exact afterThreePlaces_reachable|]. split; [reflexivity|].
  apply (undo_all_the_way 8 App.getTetrominoCells afterThreePlaces
           afterThreePlaces_reachable).
Defined.

(** ** What each event leaves alone *)

(** X6: only the rotation buttons change the rotation: placing, undo,
    redo and reset (which empties the board) keep it; and choosing a
    rotation changes neither the grid, nor the history, nor the
    cursor. *)
Theorem rotation_only_by_rotateShape :
  forall size cells s op s',
    Game.step size cells s op = Ok s' ->
    Game.currentRotation s'
    = match op with
      | Game.Rotate rotation => rotation
      | _ => Game.currentRotation s
      end
    /\ match op with
       | Game.Rotate _ =>
           Game.grid s' = Game.grid s
           /\ Game.history s' = Game.history s
           /\ Game.currentStep s' = Game.currentStep s
       | _ => True
       end.
Proof.
  intros size cells s op s'. destruct op as [row col| | | |rotation]; simpl.
  - destruct (result (Game.isValidPlacement size cells (Game.grid s) row col
                        (Game.currentRotation s))) as [[]|] eqn:Hv.
    + destruct (Game_place_accepted _ _ _ _ _ Hv) as (g' & _ & ->).
      by intros [= <-].
    + rewrite (Game_place_rejected _ _ _ _ _ Hv). by intros [= <-].
    + unfold Game.placeTetromino. by rewrite Hv.
  - destruct (GameInv.undo_cases s) as [[_ ->]|[_ Hu]]; [by intros [= <-]|].
    destruct (index (Game.history s) (Game.currentStep s - 1)) as [g|] eqn:E;
      rewrite Hu; [|done].
    by intros [= <-].
  - destruct (GameInv.redo_cases s) as [[_ ->]|[_ Hu]]; [by intros [= <-]|].
    destruct (index (Game.history s) (Game.currentStep s + 1)) as [g|] eqn:E;
      rewrite Hu; [|done].
    by intros [= <-].
  - by intros [= <-].
  - by intros [= <-].
Qed.

Lemma rotation_only_by_rotateShape_witness :
  Game.step 8 App.getTetrominoCells
    (Game.rotateShape afterFirstPlace R90) Game.Reset
  = Ok (Game.reset 8 (Game.rotateShape afterFirstPlace R90))
  /\ Game.currentRotation (Game.reset 8 (Game.rotateShape afterFirstPlace R90))
     = R90.
Proof.
  split; [reflexivity|].
  apply (rotation_only_by_rotateShape 8 App.getTetrominoCells
           (Game.rotateShape afterFirstPlace R90) Game.Reset _ eq_refl).
Defined.

(** X7: every event but reset leaves the snapshots up to the cursor in
    place, in every state whose cursor is a valid index; undo, redo and
    the rotation buttons leave the whole history as it is. *)
Theorem earlier_snapshots_kept :
  forall size cells s op s',
    0 <= Game.currentStep s < len (Game.history s) ->
    op <> Game.Reset ->
    Game.step size cells s op = Ok s' ->
    (forall j, 0 <= j <= Game.currentStep s ->
       index (Game.history s') j = index (Game.history s) j)
    /\ match op with
       | Game.Place _ _ => True
       | _ => Game.history s' = Game.history s
       end.
Proof.
  intros size cells s op s' Hrange Hop.
  destruct op as [row col| | | |rotation]; simpl; [| | |done|].
  - destruct (result (Game.isValidPlacement size cells (Game.grid s) row col
                        (Game.currentRotation s))) as [[]|] eqn:Hv.
    + destruct (Game_place_accepted _ _ _ _ _ Hv) as (g' & _ & ->).
      intros [= <-]. simpl. split; [|done]. intros j Hj.
      apply record_keeps; lia.
    + rewrite (Game_place_rejected _ _ _ _ _ Hv). by intros [= <-].
    + unfold Game.placeTetromino. by rewrite Hv.
  - destruct (GameInv.undo_cases s) as [[_ ->]|[_ Hu]]; [by intros [= <-]|].
    destruct (index (Game.history s) (Game.currentStep s - 1)) as [g|] eqn:E;
      rewrite Hu; [|done].
    by intros [= <-].
  - destruct (GameInv.redo_cases s) as [[_ ->]|[_ Hu]]; [by intros [= <-]|].
    destruct (index (Game.history s) (Game.currentStep s + 1)) as [g|] eqn:E;
      rewrite Hu; [|done].
    by intros [= <-].
  - by intros [= <-].
Qed.

Lemma earlier_snapshots_kept_witness :
  0 <= Game.currentStep afterUndo < len (Game.history afterUndo)
  /\ Game.Place 3 3 <> Game.Reset
  /\ exists s',
      Game.step 8 App.getTetrominoCells afterUndo (Game.Place 3 3) = Ok s'
      /\ index (Game.history s') 0 = index (Game.history afterUndo) 0.
Proof.
  assert (H1 : 0 <= Game.currentStep afterUndo < len (Game.history afterUndo))
    by (vm_compute; split; [discriminate|reflexivity]).
  assert (H2 : Game.Place 3 3 <> Game.Reset) by discriminate.
  split; [exact H1|]. split; [exact H2|].
  eexists. split; [reflexivity|].
  apply (earlier_snapshots_kept 8 App.getTetrominoCells afterUndo (Game.Place 3 3)
           _ H1 H2 eq_refl).
  vm_compute. split; discriminate.
Defined.

(** ** The validator of the components with a rotation control *)

Lemma reads_cellFree size g r c :
  reads (Game.cellFree size g (r, c))
  = if (0 <=? r) && (r <? size) && (0 <=? c) && (c <? size)
    then [(r, c)] else [].
Proof.
  unfold Game.cellFree. rewrite !reads_andAlso, !result_andAlso, !result_ret.
  rewrite !reads_ret, reads_notCell.
  by destruct (0 <=? r), (r <? size), (0 <=? c), (c <? size).
Qed.

Lemma reads_every_subset p cells rc :
  rc ∈ reads (every p cells) -> exists x, x ∈ cells /\ rc ∈ reads (p x).
Proof.
  induction cells as [|x rest IH]; simpl; [by intros ?%elem_of_nil|].
  rewrite reads_bind. intros [Hin|Hin]%elem_of_app.
  - exists x. split; [left|done].
  - destruct (result (p x)) as [[]|]; [|by apply elem_of_nil in Hin..].
    destruct (IH Hin) as (y & Hy & Hrc). exists y. split; [by right|done].
Qed.

(** X8: whatever the grid and the offset table, the validator of the
    components with a rotation control evaluates [grid[r][c]] only at
    cells of the shape that lie on the board: the bounds are checked
    before each read. *)
Theorem validator_reads_on_board :
  forall size cells g row col rotation rc,
    rc ∈ reads (Game.isValidPlacement size cells g row col rotation) ->
    rc ∈ cells row col rotation /\ onBoard size rc.
Proof.
  intros size cells g row col rotation rc Hin.
  apply reads_every_subset in Hin as ([r c] & Hcell & Hin).
  rewrite reads_cellFree in Hin.
  destruct (Z.leb_spec 0 r) as [Ha|Ha]; [|by apply elem_of_nil in Hin].
  destruct (Z.ltb_spec r size) as [Hb|Hb]; [|by apply elem_of_nil in Hin].
  destruct (Z.leb_spec 0 c) as [Hc|Hc]; [|by apply elem_of_nil in Hin].
  destruct (Z.ltb_spec c size) as [Hd|Hd]; [|by apply elem_of_nil in Hin].
  simpl in Hin. apply list_elem_of_singleton in Hin as ->.
  split; [done|]. unfold onBoard. simpl. lia.
Qed.

Lemma validator_reads_on_board_witness :
  (1, 0) ∈ reads (Game.isValidPlacement 8 App.getTetrominoCells (emptyGrid 8) 0 0 R0)
  /\ (1, 0) ∈ App.getTetrominoCells 0 0 R0
  /\ onBoard 8 (1, 0).
Proof.
  assert (Hin : (1, 0) ∈ reads (Game.isValidPlacement 8 App.getTetrominoCells
                                   (emptyGrid 8) 0 0 R0))
    by (vm_compute; left).
  split; [exact Hin|].
  apply (validator_reads_on_board 8 App.getTetrominoCells (emptyGrid 8) 0 0 R0
           (1, 0) Hin).
Defined.

(** ** The shape and the clicked cell *)

Ltac by_table H :=
  destruct H as [ -> | [ -> | -> ] ].

Lemma anchor_in_shape cells row col rotation :
  fromSource cells -> (row, col) ∈ cells row col rotation.
Proof.
  intros Hsrc. by_table Hsrc; destruct rotation; simpl;
    rewrite !elem_of_cons; auto.
Qed.

Lemma shape_near_anchor cells row col rotation r c :
  fromSource cells -> (r, c) ∈ cells row col rotation ->
  row - 1 <= r <= row + 1 /\ col - 1 <= c <= col + 1.
Proof.
  intros Hsrc. by_table Hsrc; destruct rotation; simpl;
    rewrite !elem_of_cons, elem_of_nil;
    intros Hin; repeat (destruct Hin as [Hin|Hin]); try done;
    injection Hin as -> ->; lia.
Qed.

(** The generic part of the frame property of an accepted placement. *)
Lemma Game_accepted_frame size cells s row col :
  wfGrid size (Game.grid s) ->
  result (Game.isValidPlacement size cells (Game.grid s) row col
            (Game.currentRotation s)) = Ok true ->
  exists s',
    Game.placeTetromino size cells s row col = Ok s'
    /\ wfGrid size (Game.grid s')
    /\ Forall (fits size (Game.grid s)) (cells row col (Game.currentRotation s))
    /\ (forall rc, rc ∈ cells row col (Game.currentRotation s) ->
          cellAt (Game.grid s') rc.1 rc.2 = Some T)
    /\ (forall r c, (r, c) ∉ cells row col (Game.currentRotation s) ->
          cellAt (Game.grid s') r c = cellAt (Game.grid s) r c).
Proof.
  intros Hwf Hacc.
  destruct (Game_isValidPlacement_spec size cells (Game.grid s) row col
              (Game.currentRotation s) Hwf) as (b & Hb & Hiff).
  rewrite Hacc in Hb. injection Hb as <-.
  pose proof (proj1 Hiff eq_refl) as Hfits.
  destruct (Game_place_accepted _ _ _ _ _ Hacc) as (g' & Hg' & ->).
  destruct (forEachSet_wf size (Game.grid s)
              (cells row col (Game.currentRotation s)) Hwf)
    as (g'' & Hg'' & Hwf' & Hin & Hout).
  { eapply Forall_impl; [exact Hfits|]. apply fits_onBoard. }
  rewrite Hg' in Hg''. injection Hg'' as <-.
  eexists. split; [done|]. simpl. done.
Qed.

(** X9: with each offset table of the source the clicked cell belongs
    to the shape, in every rotation.  So on a square board a click on
    an occupied cell is always rejected, and an accepted placement
    always occupies the clicked cell. *)
Theorem clicked_cell_is_in_the_shape :
  forall size cells s row col,
    fromSource cells ->
    wfGrid size (Game.grid s) ->
    (row, col) ∈ cells row col (Game.currentRotation s)
    /\ (cellAt (Game.grid s) row col = Some T ->
        Game.placeTetromino size cells s row col = Ok s)
    /\ (result (Game.isValidPlacement size cells (Game.grid s) row col
                  (Game.currentRotation s)) = Ok true ->
        exists s', Game.placeTetromino size cells s row col = Ok s'
                   /\ cellAt (Game.grid s') row col = Some T).
Proof.
  intros size cells s row col Hsrc Hwf.
  pose proof (anchor_in_shape cells row col (Game.currentRotation s) Hsrc) as Hin.
  split; [done|]. split.
  - intros Hocc. apply Game_place_rejected.
    destruct (Game_isValidPlacement_spec size cells (Game.grid s) row col
                (Game.currentRotation s) Hwf) as (b & Hb & Hiff).
    destruct b; [|done]. exfalso.
    pose proof (proj1 Hiff eq_refl) as Hfits.
    apply (proj1 (Forall_forall _ _) Hfits) in Hin as (_ & _ & Hempty).
    simpl in Hempty. congruence.
  - intros Hacc.
    destruct (Game_accepted_frame size cells s row col Hwf Hacc)
      as (s' & Hplace & _ & _ & Hset & _).
    exists s'. split; [done|]. by apply (Hset (row, col)).
Qed.

Lemma clicked_cell_is_in_the_shape_witness :
  fromSource App2.getTetrominoCells
  /\ wfGrid 8 (Game.grid afterThreePlaces)
  /\ cellAt (Game.grid afterThreePlaces) 0 5 = Some T
  /\ Game.placeTetromino 8 App2.getTetrominoCells afterThreePlaces 0 5
     = Ok afterThreePlaces
  /\ result (Game.isValidPlacement 8 App2.getTetrominoCells
               (Game.grid afterThreePlaces) 4 4
               (Game.currentRotation afterThreePlaces)) = Ok true
  /\ exists s', Game.placeTetromino 8 App2.getTetrominoCells afterThreePlaces 4 4
                = Ok s'
                /\ cellAt (Game.grid s') 4 4 = Some T.
Proof.
  assert (Hsrc : fromSource App2.getTetrominoCells) by (right; left; reflexivity).
  assert (Hwf : wfGrid 8 (Game.grid afterThreePlaces)).
  { split; [reflexivity|]. vm_compute. repeat constructor. }
  destruct (clicked_cell_is_in_the_shape 8 App2.getTetrominoCells afterThreePlaces
              0 5 Hsrc Hwf) as (_ & Hrej & _).
  destruct (clicked_cell_is_in_the_shape 8 App2.getTetrominoCells afterThreePlaces
              4 4 Hsrc Hwf) as (_ & _ & Hacc).
  split; [exact Hsrc|]. split; [exact Hwf|]. split; [reflexivity|].
  split; [apply Hrej; reflexivity|]. split; [reflexivity|].
  apply Hacc. reflexivity.
Defined.

(** X10: an accepted placement changes the board only next to the
    clicked cell: every cell more than one row or one column away from
    the anchor keeps its value. *)
Theorem placement_is_local :
  forall size cells s row col s' r c,
    fromSource cells ->
    wfGrid size (Game.grid s) ->
    Game.placeTetromino size cells s row col = Ok s' ->
    (r < row - 1 \/ row + 1 < r \/ c < col - 1 \/ col + 1 < c) ->
    cellAt (Game.grid s') r c = cellAt (Game.grid s) r c.
Proof.
  intros size cells s row col s' r c Hsrc Hwf Hplace Hfar.
  destruct (Game_isValidPlacement_spec size cells (Game.grid s) row col
              (Game.currentRotation s) Hwf) as (b & Hb & _).
  destruct b.
  - destruct (Game_accepted_frame size cells s row col Hwf Hb)
      as (s'' & Hplace' & _ & _ & _ & Hout).
    rewrite Hplace in Hplace'. injection Hplace' as <-.
    apply Hout. intros Hin.
    apply (shape_near_anchor cells row col _ r c Hsrc) in Hin. lia.
  - rewrite (Game_place_rejected _ _ _ _ _ Hb) in Hplace.
    by injection Hplace as <-.
Qed.

Lemma placement_is_local_witness :
  fromSource App.getTetrominoCells
  /\ wfGrid 8 (Game.grid (Game.init 8))
  /\ Game.placeTetromino 8 App.getTetrominoCells (Game.init 8) 0 1
     = Ok afterFirstPlace
  /\ (3 < 0 - 1 \/ 0 + 1 < 3 \/ 1 < 1 - 1 \/ 1 + 1 < 1)
  /\ cellAt (Game.grid afterFirstPlace) 3 1 = cellAt (Game.grid (Game.init 8)) 3 1.
Proof.
  assert (Hsrc : fromSource App.getTetrominoCells) by (left; reflexivity).
  assert (Hwf : wfGrid 8 (Game.grid (Game.init 8)))
    by (apply wfGrid_emptyGrid; lia).
  assert (Hfar : 3 < 0 - 1 \/ 0 + 1 < 3 \/ 1 < 1 - 1 \/ 1 + 1 < 1)
    by (right; left; lia).
  split; [exact Hsrc|]. split; [exact Hwf|]. split; [reflexivity|].
  split; [exact Hfar|].
  apply (placement_is_local 8 App.getTetrominoCells (Game.init 8) 0 1
           afterFirstPlace 3 1 Hsrc Hwf eq_refl Hfar).
Defined.

(** ** Where a shape can be placed *)

Lemma fits_emptyGrid n rc : onBoard n rc -> fits n (emptyGrid n) rc.
Proof.
  intros [Hr Hc]. unfold fits. split; [done|]. split; [done|].
  by apply cellAt_emptyGrid.
Qed.

Lemma shapeOnBoard_iff cells size row col rotation :
  fromSource cells ->
  Forall (onBoard size) (cells row col rotation)
  <-> shapeOnBoard size row col rotation.
Proof.
  intros Hsrc. by_table Hsrc; destruct rotation; simpl;
    rewrite !Forall_cons, Forall_nil; unfold onBoard; simpl; lia.
Qed.

(** X11: on a square board of side N a placement is accepted only if
    the whole shape lies on the board: for rotations 0 and 180 the
    anchor needs a row below it and a column on either side, for
    rotation 90 a row above, a row below and a column to the left, for
    rotation 270 a row above, a row below and a column to the right.
    On the empty board every such anchor is accepted.  In
    [src/unnamed/part_001] the condition is that of rotation 0. *)
Theorem anchors_that_fit :
  (forall size cells g row col rotation,
      fromSource cells -> wfGrid size g ->
      (result (Game.isValidPlacement size cells g row col rotation) = Ok true ->
       shapeOnBoard size row col rotation)
      /\ (g = emptyGrid size -> shapeOnBoard size row col rotation ->
          result (Game.isValidPlacement size cells g row col rotation) = Ok true))
  /\ (forall g row col,
      wfGrid 8 g ->
      (result (Single.isValidPlacement g row col) = Ok true ->
       shapeOnBoard 8 row col R0)
      /\ (g = emptyGrid 8 -> shapeOnBoard 8 row col R0 ->
          result (Single.isValidPlacement g row col) = Ok true)).
Proof.
  split.
  - intros size cells g row col rotation Hsrc Hwf.
    destruct (Game_isValidPlacement_spec size cells g row col rotation Hwf)
      as (b & Hb & Hiff).
    rewrite Hb. split.
    + intros [= ->]. apply (shapeOnBoard_iff cells); [done|].
      eapply Forall_impl; [by apply Hiff|]. apply fits_onBoard.
    + intros -> Hbox. f_equal. apply Hiff.
      apply (shapeOnBoard_iff cells) in Hbox; [|done].
      eapply Forall_impl; [exact Hbox|]. apply fits_emptyGrid.
  - intros g row col Hwf.
    destruct (Single_isValidPlacement_spec g row col Hwf) as (b & Hb & Hiff).
    rewrite Hb.
    assert (Hbox : Forall (onBoard 8) (Single.tetrominoCells row col)
                   <-> shapeOnBoard 8 row col R0).
    { unfold Single.tetrominoCells. simpl.
      rewrite !Forall_cons, Forall_nil. unfold onBoard. simpl. lia. }
    split.
    + intros [= ->]. apply Hbox.
      eapply Forall_impl; [by apply Hiff|]. apply fits_onBoard.
    + intros -> Hfit. f_equal. apply Hiff. apply Hbox in Hfit.
      eapply Forall_impl; [exact Hfit|]. apply fits_emptyGrid.
Qed.

Lemma anchors_that_fit_witness :
  fromSource App.getTetrominoCells
  /\ wfGrid 6 (emptyGrid 6)
  /\ shapeOnBoard 6 1 5 R90
  /\ result (Game.isValidPlacement 6 App.getTetrominoCells (emptyGrid 6) 1 5 R90)
     = Ok true
  /\ wfGrid 8 (emptyGrid 8)
  /\ shapeOnBoard 8 6 6 R0
  /\ result (Single.isValidPlacement (emptyGrid 8) 6 6) = Ok true.
Proof.
  assert (Hsrc : fromSource App.getTetrominoCells) by (left; reflexivity).
  assert (Hwf6 : wfGrid 6 (emptyGrid 6)) by (apply wfGrid_emptyGrid; lia).
  assert (Hwf8 : wfGrid 8 (emptyGrid 8)) by (apply wfGrid_emptyGrid; lia).
  assert (Hbox6 : shapeOnBoard 6 1 5 R90) by (simpl; lia).
  assert (Hbox8 : shapeOnBoard 8 6 6 R0) by (simpl; lia).
  destruct (proj1 anchors_that_fit 6 App.getTetrominoCells (emptyGrid 6) 1 5 R90
              Hsrc Hwf6) as [Hnec Hsuf].
  destruct (proj2 anchors_that_fit (emptyGrid 8) 6 6 Hwf8) as [Hnec1 Hsuf1].
  split; [exact Hsrc|]. split; [exact Hwf6|].
  split; [exact (Hnec (Hsuf eq_refl Hbox6))|].
  split; [exact (Hsuf eq_refl Hbox6)|].
  split; [exact Hwf8|].
  split; [exact (Hnec1 (Hsuf1 eq_refl Hbox8))|exact (Hsuf1 eq_refl Hbox8)].
Defined.

(** ** How the components relate *)

Lemma swapRotation_involutive rotation :
  swapRotation (swapRotation rotation) = rotation.
Proof. by destruct rotation. Qed.

Lemma swapState_involutive s : swapState (swapState s) = s.
Proof. destruct s. unfold swapState. simpl. by rewrite swapRotation_involutive. Qed.

Lemma swapOp_involutive op : swapOp (swapOp op) = op.
Proof. destruct op; simpl; [done..|]. by rewrite swapRotation_involutive. Qed.

Lemma App2_table_swapped row col rotation :
  App2.getTetrominoCells row col rotation
  = App.getTetrominoCells row col (swapRotation rotation).
Proof. by destruct rotation. Qed.

Lemma App2_step_swapped size s op :
  Game.step size App2.getTetrominoCells s op
  = mapOutcome swapState
      (Game.step size App.getTetrominoCells (swapState s) (swapOp op)).
Proof.
  destruct op as [row col| | | |rotation]; simpl.
  - unfold Game.placeTetromino, Game.isValidPlacement. simpl.
    rewrite <- App2_table_swapped.
    destruct (result (every _ _)) as [[]|]; simpl; [| |done].
    + destruct (forEachSet _ _) as [g'|]; simpl; [|done].
      unfold swapState. simpl. by rewrite swapRotation_involutive.
    + by rewrite swapState_involutive.
  - unfold Game.undo. simpl. destruct (0 <? Game.currentStep s); simpl.
    + destruct (index _ _); simpl; [|done].
      unfold swapState. simpl. by rewrite swapRotation_involutive.
    + by rewrite swapState_involutive.
  - unfold Game.redo. simpl.
    destruct (Game.currentStep s <? len (Game.history s) - 1); simpl.
    + destruct (index _ _); simpl; [|done].
      unfold swapState. simpl. by rewrite swapRotation_involutive.
    + by rewrite swapState_involutive.
  - unfold Game.reset, swapState. simpl. by rewrite swapRotation_involutive.
  - unfold Game.rotateShape, swapState. simpl. by rewrite swapRotation_involutive.
Qed.

Lemma App_step_swapped size s op :
  Game.step size App.getTetrominoCells s op
  = mapOutcome swapState
      (Game.step size App2.getTetrominoCells (swapState s) (swapOp op)).
Proof.
  rewrite App2_step_swapped, swapState_involutive, swapOp_involutive.
  destruct (Game.step _ _ _ _) as [s'|]; simpl; [|done].
  by rewrite swapState_involutive.
Qed.

Lemma swapState_init_reachable size cells :
  Game.reachable size cells (swapState (Game.init size)).
Proof.
  apply (Game.reach_step size cells (Game.init size) (Game.Rotate R180));
    [apply Game.reach_init|done].
Qed.

(** X12: the second component of [src/src/App.tsx] is the first one
    with rotations 0 and 180 exchanged: an event in the second has the
    outcome the exchanged event has in the first from the exchanged
    state, and a state is reachable in one exactly when the exchanged
    state is reachable in the other. *)
Theorem second_App_is_first_with_0_and_180_swapped :
  (forall row col rotation,
      App2.getTetrominoCells row col rotation
      = App.getTetrominoCells row col (swapRotation rotation))
  /\ (forall size s op,
      Game.step size App2.getTetrominoCells s op
      = mapOutcome swapState
          (Game.step size App.getTetrominoCells (swapState s) (swapOp op)))
  /\ (forall size s,
      Game.reachable size App2.getTetrominoCells s
      <-> Game.reachable size App.getTetrominoCells (swapState s)).
Proof.
  split; [exact App2_table_swapped|]. split; [exact App2_step_swapped|].
  intros size s. split.
  - induction 1 as [|s op s' _ IH Hstep]; [apply swapState_init_reachable|].
    apply (Game.reach_step size _ (swapState s) (swapOp op)); [exact IH|].
    rewrite App2_step_swapped in Hstep.
    destruct (Game.step _ _ _ _) as [t|]; [|done].
    injection Hstep as <-. by rewrite swapState_involutive.
  - intros Hreach. rewrite <- (swapState_involutive s).
    induction Hreach as [|t op t' _ IH Hstep]; [apply swapState_init_reachable|].
    apply (Game.reach_step size _ (swapState t) (swapOp op)); [exact IH|].
    rewrite App_step_swapped in Hstep.
    destruct (Game.step _ _ _ _) as [u|]; [|done].
    injection Hstep as <-. by rewrite swapState_involutive.
Qed.

Lemma Single_table_is_App2_rotation_0 row col :
  Single.tetrominoCells row col = App2.getTetrominoCells row col R0.
Proof. done. Qed.

Lemma Single_step_asGame s op s' :
  wfGrid 8 (Single.grid s) ->
  Single.step s op = Ok s' ->
  Game.step 8 App2.getTetrominoCells (asGame s) (asGameOp op) = Ok (asGame s').
Proof.
  intros Hwf. destruct op as [row col| | |]; cbn [asGameOp Single.step Game.step].
  - rewrite Single_place_unfold. unfold Game.placeTetromino.
    cbn [asGame Game.grid Game.history Game.currentStep Game.currentRotation].
    destruct (Single_isValidPlacement_spec (Single.grid s) row col Hwf)
      as (b1 & -> & H1).
    destruct (Game_isValidPlacement_spec 8 App2.getTetrominoCells (Single.grid s)
                row col R0 Hwf) as (b2 & -> & H2).
    change (App2.getTetrominoCells row col R0)
      with (Single.tetrominoCells row col) in H2.
    assert (b1 = b2) as <-.
    { destruct b1, b2; try done.
      - symmetry. apply H2, H1. done.
      - apply H1, H2. done. }
    destruct b1; [|by intros [= <-]].
    change (App2.getTetrominoCells row col R0)
      with (Single.tetrominoCells row col).
    destruct (forEachSet _ _) as [g'|]; [|done]. by intros [= <-].
  - unfold Single.undo, Game.undo. simpl.
    destruct (0 <? Single.currentStep s); [|by intros [= <-]].
    destruct (index _ _); [|done]. by intros [= <-].
  - unfold Single.redo, Game.redo. simpl.
    destruct (Single.currentStep s <? len (Single.history s) - 1);
      [|by intros [= <-]].
    destruct (index _ _); [|done]. by intros [= <-].
  - by intros [= <-].
Qed.

Lemma Single_reachable_asGame s :
  Single.reachable s -> Game.reachable 8 App2.getTetrominoCells (asGame s).
Proof.
  induction 1 as [|s op s' Hreach IH Hstep]; [apply Game.reach_init|].
  apply (Game.reach_step 8 _ (asGame s) (asGameOp op)); [exact IH|].
  apply Single_step_asGame; [|done].
  apply (SingleInv.single_reachable_boardsInv s Hreach).
Qed.

(** X13: the component of [src/unnamed/part_001] behaves as the second
    component of [src/src/App.tsx] kept at rotation 0: on an 8x8 board
    each of its events has the same outcome there, so each of its
    reachable states is a reachable state of that component. *)
Theorem single_is_second_App_at_rotation_0 :
  (forall s op s',
      wfGrid 8 (Single.grid s) ->
      Single.step s op = Ok s' ->
      Game.step 8 App2.getTetrominoCells (asGame s) (asGameOp op)
      = Ok (asGame s'))
  /\ (forall s,
      Single.reachable s ->
      Game.reachable 8 App2.getTetrominoCells (asGame s)).
Proof.
  split; [exact Single_step_asGame|exact Single_reachable_asGame].
Qed.

Lemma single_is_second_App_at_rotation_0_witness :
  wfGrid 8 (Single.grid Single.init)
  /\ Single.step Single.init (Single.Place 0 1) = Ok singleAfterFirstPlace
  /\ Game.step 8 App2.getTetrominoCells (asGame Single.init) (Game.Place 0 1)
     = Ok (asGame singleAfterFirstPlace)
  /\ Single.reachable singleAfterFirstPlace
  /\ Game.reachable 8 App2.getTetrominoCells (asGame singleAfterFirstPlace).
Proof.
  assert (Hwf : wfGrid 8 (Single.grid Single.init))
    by (apply wfGrid_emptyGrid; lia).
  split; [exact Hwf|]. split; [reflexivity|]. split.
  - apply (proj1 single_is_second_App_at_rotation_0 Single.init
             (Single.Place 0 1) singleAfterFirstPlace Hwf eq_refl).
  - split; [exact singleAfterFirstPlace_reachable|].
    apply (proj2 single_is_second_App_at_rotation_0 singleAfterFirstPlace
             singleAfterFirstPlace_reachable).
Defined.

Lemma second_App_is_first_with_0_and_180_swapped_witness :
  Game.reachable 8 App2.getTetrominoCells (Game.init 8)
  /\ Game.reachable 8 App.getTetrominoCells (swapState (Game.init 8)).
Proof.
  assert (Hreach : Game.reachable 8 App2.getTetrominoCells (Game.init 8))
    by apply Game.reach_init.
  split; [exact Hreach|].
  apply (proj1 (proj2 (proj2 second_App_is_first_with_0_and_180_swapped)
                  8 (Game.init 8)) Hreach).
Defined.

(** ** Counting the occupied cells *)

Lemma countRow_cons x row :
  countRow (x :: row) = ((if decide (x = T) then 1 else 0) + countRow row)%nat.
Proof.
  unfold countRow. rewrite filter_cons. by destruct (decide (x = T)).
Qed.

Lemma countRow_insert row (c : nat) :
  row !! c = Some Empty -> countRow (<[c := T]> row) = S (countRow row).
Proof.
  revert c. induction row as [|x row IH]; intros c; [done|].
  destruct c as [|c]; simpl.
  - intros [= ->]. by rewrite !countRow_cons.
  - intros Hc. rewrite !countRow_cons, (IH c Hc). lia.
Qed.

Lemma countRow_le row : (countRow row <= length row)%nat.
Proof. apply length_filter. Qed.

Lemma countT_insert g (r : nat) row row' :
  g !! r = Some row ->
  (countT (<[r := row']> g) + countRow row = countT g + countRow row')%nat.
Proof.
  revert r. induction g as [|x g IH]; intros r; [done|].
  destruct r as [|r]; simpl.
  - intros [= ->]. unfold countT. simpl. lia.
  - intros Hr. specialize (IH r Hr). unfold countT in *. simpl. lia.
Qed.

Lemma countT_emptyGrid n : countT (emptyGrid n) = 0%nat.
Proof.
  unfold emptyGrid. generalize (Z.to_nat n) at 1. intros m.
  induction m as [|m IH]; [done|]. unfold countT in *. simpl. rewrite IH.
  assert (Hrow : forall k, countRow (replicate k Empty) = 0%nat).
  { induction k as [|k IHk]; [done|]. simpl. by rewrite countRow_cons, IHk. }
  by rewrite Hrow.
Qed.

Lemma countT_le n g :
  wfGrid n g -> Z.of_nat (countT g) <= n * n.
Proof.
  intros [Hlen Hrows]. rewrite <- Hlen at 1. unfold len. clear Hlen.
  induction Hrows as [|row g Hrow _ IH]; [simpl; lia|].
  unfold countT in *. simpl.
  pose proof (countRow_le row) as Hle. unfold len in Hrow. nia.
Qed.

Lemma setCell_count n g r c g' :
  wfGrid n g -> cellAt g r c = Some Empty -> setCell g r c = Ok g' ->
  countT g' = S (countT g).
Proof.
  intros Hwf Hcell. unfold setCell, cellAt in *.
  destruct (index g r) as [row|] eqn:Hrow; [|done].
  intros [= <-].
  pose proof (index_Some _ _ _ Hrow) as Hr.
  pose proof (index_Some _ _ _ Hcell) as Hc.
  unfold index in Hrow, Hcell.
  destruct (Z.ltb_spec r 0) as [Hlt|_]; [lia|].
  destruct (Z.ltb_spec c 0) as [Hlt|_]; [lia|].
  unfold assign.
  destruct (Z.ltb_spec c 0) as [Hlt|_]; [lia|].
  destruct (Z.ltb_spec c (len row)) as [_|Hge]; [|lia].
  pose proof (countT_insert g (Z.to_nat r) row
                (<[Z.to_nat c := T]> row) Hrow) as Hsum.
  rewrite (countRow_insert _ _ Hcell) in Hsum. lia.
Qed.

Lemma forEachSet_count n cells : forall g g',
  wfGrid n g -> NoDup cells -> Forall (fits n g) cells ->
  forEachSet g cells = Ok g' ->
  countT g' = (countT g + length cells)%nat.
Proof.
  induction cells as [|[r c] rest IH]; intros g g' Hwf Hnd Hfits; simpl.
  - intros [= <-]. lia.
  - apply NoDup_cons in Hnd as [Hnotin Hnd].
    apply Forall_cons in Hfits as [(Hr & Hc & Hcell) Hfits]. simpl in *.
    destruct (setCell_wf n g r c Hwf Hr Hc) as (g1 & Hg1 & Hwf1 & _ & Hframe).
    rewrite Hg1. intros Hrest.
    assert (Hfits1 : Forall (fits n g1) rest).
    { apply Forall_forall. intros [r' c'] Hin.
      pose proof (proj1 (Forall_forall _ _) Hfits _ Hin) as (Hr' & Hc' & Hcell').
      split; [done|]. split; [done|]. simpl in *.
      rewrite Hframe; [done|]. intros [= -> ->]. done. }
    rewrite (IH g1 g' Hwf1 Hnd Hfits1 Hrest).
    rewrite (setCell_count n g r c g1 Hwf Hcell Hg1). lia.
Qed.

(** The snapshot at index [i] holds [4 * i] occupied cells. *)
Lemma Game_count_step size cells s op s' :
  fromSource cells ->
  Game.cursorInv s -> Game.boardsInv size s ->
  (forall i g, index (Game.history s) i = Some g -> Z.of_nat (countT g) = 4 * i) ->
  Game.step size cells s op = Ok s' ->
  forall i g, index (Game.history s') i = Some g -> Z.of_nat (countT g) = 4 * i.
Proof.
  intros Hsrc Hcur Hwf Hcount.
  pose proof (GameInv.cursorInv_range _ Hcur) as Hrange.
  destruct op as [row col| | | |rotation]; simpl.
  - destruct (result (Game.isValidPlacement size cells (Game.grid s) row col
                        (Game.currentRotation s))) as [[]|] eqn:Hv.
    + destruct (Game_accepted_frame size cells s row col (proj1 Hwf) Hv)
        as (s'' & Hplace & _ & Hfits & _).
      destruct (Game_place_accepted _ _ _ _ _ Hv) as (g' & Hg' & Heq).
      rewrite Heq. intros [= <-]. simpl. intros i g Hi.
      pose proof (index_Some _ _ _ Hi) as Hirange.
      destruct (record_index (Game.history s) (Game.currentStep s)
                  (Game.grid s) g' Hcur) as [Hlast Hlen].
      rewrite Hlen in Hirange.
      destruct (decide (i = Game.currentStep s + 1)) as [->|Hne].
      * rewrite Hlast in Hi. injection Hi as <-.
        assert (Hfour : fourDistinct (cells row col (Game.currentRotation s))).
        { by_table Hsrc; auto using App_fourDistinct, App2_fourDistinct,
            PuzzleGame_fourDistinct. }
        destruct Hfour as [Hlen4 Hnd].
        rewrite (forEachSet_count size _ _ _ (proj1 Hwf) Hnd Hfits Hg'), Hlen4.
        specialize (Hcount _ _ Hcur). lia.
      * rewrite record_keeps in Hi by lia. by apply Hcount.
    + rewrite (Game_place_rejected _ _ _ _ _ Hv). by intros [= <-].
    + unfold Game.placeTetromino. by rewrite Hv.
  - destruct (GameInv.undo_cases s) as [[_ ->]|[_ Hu]]; [by intros [= <-]|].
    destruct (index (Game.history s) (Game.currentStep s - 1)) as [g|] eqn:E;
      rewrite Hu; [|done].
    by intros [= <-].
  - destruct (GameInv.redo_cases s) as [[_ ->]|[_ Hu]]; [by intros [= <-]|].
    destruct (index (Game.history s) (Game.currentStep s + 1)) as [g|] eqn:E;
      rewrite Hu; [|done].
    by intros [= <-].
  - intros [= <-]. simpl. intros i g Hi.
    pose proof (index_Some _ _ _ Hi) as Hirange. unfold len in Hirange.
    simpl in Hirange. assert (i = 0) as -> by lia.
    injection Hi as <-. by rewrite countT_emptyGrid.
  - by intros [= <-].
Qed.

Lemma Game_count size cells s :
  0 <= size -> fromSource cells -> Game.reachable size cells s ->
  forall i g, index (Game.history s) i = Some g -> Z.of_nat (countT g) = 4 * i.
Proof.
  intros Hsize Hsrc. induction 1 as [|s op s' Hreach IH Hstep].
  - simpl. intros i g Hi.
    pose proof (index_Some _ _ _ Hi) as Hirange. unfold len in Hirange.
    simpl in Hirange. assert (i = 0) as -> by lia.
    injection Hi as <-. by rewrite countT_emptyGrid.
  - eapply Game_count_step; [exact Hsrc| | |exact IH|exact Hstep].
    + by eapply GameInv.reachable_cursorInv.
    + by eapply GameInv.reachable_boardsInv.
Qed.

(** X14: with an offset table of the source, in every reachable state
    the snapshot at index i of the history holds exactly 4 * i occupied
    cells, so the grid holds 4 * currentStep of them: the shapes placed
    never overlap.  Hence 4 * currentStep never exceeds the number of
    cells of the board, nor does 4 * (history.length - 1). *)
Theorem four_cells_per_step :
  forall size cells s,
    0 <= size -> fromSource cells -> Game.reachable size cells s ->
    (forall i g, index (Game.history s) i = Some g ->
       Z.of_nat (countT g) = 4 * i)
    /\ Z.of_nat (countT (Game.grid s)) = 4 * Game.currentStep s
    /\ 4 * Game.currentStep s <= size * size
    /\ 4 * (len (Game.history s) - 1) <= size * size.
Proof.
  intros size cells s Hsize Hsrc Hreach.
  pose proof (Game_count size cells s Hsize Hsrc Hreach) as Hcount.
  pose proof (GameInv.reachable_cursorInv _ _ _ Hreach) as Hcur.
  pose proof (GameInv.reachable_boardsInv _ _ _ Hsize Hreach) as Hwf.
  pose proof (GameInv.cursorInv_range _ Hcur) as Hrange.
  split; [exact Hcount|].
  assert (Hgrid : Z.of_nat (countT (Game.grid s)) = 4 * Game.currentStep s)
    by (by apply Hcount).
  split; [exact Hgrid|]. split.
  - rewrite <- Hgrid. apply countT_le, Hwf.
  - destruct (index_is_Some (Game.history s) (len (Game.history s) - 1))
      as [g Hg]; [lia|].
    rewrite <- (Hcount _ _ Hg). apply countT_le.
    by eapply GameInv.boardsInv_index.
Qed.

Lemma four_cells_per_step_witness :
  0 <= 8 /\ fromSource App.getTetrominoCells
  /\ Game.reachable 8 App.getTetrominoCells afterThreePlaces
  /\ Z.of_nat (countT (Game.grid afterThreePlaces))
     = 4 * Game.currentStep afterThreePlaces
  /\ 4 * Game.currentStep afterThreePlaces <= 8 * 8
  /\ 4 * (len (Game.history afterThreePlaces) - 1) <= 8 * 8.
Proof.
  assert (H8 : 0 <= 8) by lia.
  assert (Hsrc : fromSource App.getTetrominoCells) by (left; reflexivity).
  split; [exact H8|]. split; [exact Hsrc|].
  split; [exact afterThreePlaces_reachable|].
  apply (four_cells_per_step 8 App.getTetrominoCells afterThreePlaces H8 Hsrc
           afterThreePlaces_reachable).
Defined.

(** X15: the same in [src/unnamed/part_001]: the grid of a reachable
    state holds 4 * currentStep occupied cells, so the cursor never
    exceeds 16 and the history never holds more than 17 snapshots. *)
Theorem single_four_cells_per_step :
  forall s,
    Single.reachable s ->
    Z.of_nat (countT (Single.grid s)) = 4 * Single.currentStep s
    /\ Single.currentStep s <= 16
    /\ len (Single.history s) <= 17.
Proof.
  intros s Hreach%Single_reachable_asGame.
  assert (H8 : 0 <= 8) by lia.
  assert (Hsrc : fromSource App2.getTetrominoCells) by (right; left; reflexivity).
  pose proof (Game_count 8 _ _ H8 Hsrc Hreach) as Hcount.
  pose proof (GameInv.reachable_cursorInv _ _ _ Hreach) as Hcur.
  pose proof (GameInv.reachable_boardsInv _ _ _ H8 Hreach) as Hwf.
  pose proof (GameInv.cursorInv_range _ Hcur) as Hrange.
  simpl in *.
  assert (Hgrid : Z.of_nat (countT (Single.grid s)) = 4 * Single.currentStep s)
    by (by apply (Hcount _ _ Hcur)).
  split; [exact Hgrid|].
  destruct (index_is_Some (Single.history s) (len (Single.history s) - 1))
    as [g Hg]; [lia|].
  pose proof (Hcount _ _ Hg) as Hlast.
  pose proof (countT_le 8 g (GameInv.boardsInv_index 8 (asGame s) _ _ Hwf Hg)).
  lia.
Qed.

Lemma single_four_cells_per_step_witness :
  Single.reachable singleAfterFirstPlace
  /\ Z.of_nat (countT (Single.grid singleAfterFirstPlace))
     = 4 * Single.currentStep singleAfterFirstPlace
  /\ Single.currentStep singleAfterFirstPlace <= 16
  /\ len (Single.history singleAfterFirstPlace) <= 17.
Proof.
  split; [exact singleAfterFirstPlace_reachable|].
  apply (single_four_cells_per_step singleAfterFirstPlace
           singleAfterFirstPlace_reachable).
Defined.

(** ** The rendered controls *)

(** X16: in a reachable state the Undo button is disabled exactly when
    [undo] would do nothing, and the Redo button exactly when [redo]
    would do nothing; a button that is enabled moves the cursor by one
    to the snapshot stored there and leaves the history as it is. *)
Theorem buttons_match_handlers :
  forall size cells s,
    Game.reachable size cells s ->
    (if View.undoDisabled (Game.currentStep s)
     then Game.undo s = Ok s
     else exists s',
         Game.undo s = Ok s'
         /\ Game.currentStep s' = Game.currentStep s - 1
         /\ index (Game.history s) (Game.currentStep s - 1) = Some (Game.grid s')
         /\ Game.history s' = Game.history s)
    /\ (if View.redoDisabled (Game.currentStep s) (Game.history s)
        then Game.redo s = Ok s
        else exists s',
            Game.redo s = Ok s'
            /\ Game.currentStep s' = Game.currentStep s + 1
            /\ index (Game.history s) (Game.currentStep s + 1) = Some (Game.grid s')
            /\ Game.history s' = Game.history s).
Proof.
  intros size cells s Hinv%GameInv.reachable_cursorInv.
  pose proof (GameInv.cursorInv_range _ Hinv) as Hrange.
  unfold View.undoDisabled, View.redoDisabled. split.
  - destruct (Z.eqb_spec (Game.currentStep s) 0) as [H0|H0].
    + unfold Game.undo. by rewrite H0.
    + destruct (GameInv.undo_cases s) as [[Hle _]|[_ Hu]]; [lia|].
      destruct (index_is_Some (Game.history s) (Game.currentStep s - 1))
        as [g Hg]; [lia|].
      rewrite Hg in Hu |- *. eexists. split; [exact Hu|]. done.
  - destruct (Z.eqb_spec (Game.currentStep s) (len (Game.history s) - 1))
      as [H0|H0].
    + unfold Game.redo. by rewrite <- H0, Z.ltb_irrefl.
    + destruct (GameInv.redo_cases s) as [[Hle _]|[_ Hu]]; [lia|].
      destruct (index_is_Some (Game.history s) (Game.currentStep s + 1))
        as [g Hg]; [lia|].
      rewrite Hg in Hu |- *. eexists. split; [exact Hu|]. done.
Qed.

Lemma buttons_match_handlers_witness :
  Game.reachable 8 App.getTetrominoCells afterFirstPlace
  /\ View.undoDisabled (Game.currentStep afterFirstPlace) = false
  /\ (exists s',
        Game.undo afterFirstPlace = Ok s'
        /\ Game.currentStep s' = Game.currentStep afterFirstPlace - 1
        /\ index (Game.history afterFirstPlace)
             (Game.currentStep afterFirstPlace - 1) = Some (Game.grid s')
        /\ Game.history s' = Game.history afterFirstPlace)
  /\ View.redoDisabled (Game.currentStep afterFirstPlace)
       (Game.history afterFirstPlace) = true
  /\ Game.redo afterFirstPlace = Ok afterFirstPlace.
Proof.
  destruct (buttons_match_handlers 8 App.getTetrominoCells afterFirstPlace
              afterFirstPlace_reachable) as [Hu Hr].
  split; [exact afterFirstPlace_reachable|]. split; [reflexivity|].
  split; [exact Hu|]. split; [reflexivity|exact Hr].
Defined.

Lemma cellViewAt_renderBoard g r c :
  View.cellViewAt (View.renderBoard g) r c
  = match cellAt g r c with
    | Some cell => Some {| View.isOccupied := bool_decide (cell = T);
                           View.onClick := (r, c) |}
    | None => None
    end.
Proof.
  unfold View.cellViewAt, View.renderBoard, cellAt, index.
  destruct (Z.ltb_spec r 0) as [Hr|Hr]; [done|].
  rewrite list_lookup_imap. destruct (g !! Z.to_nat r) as [row|]; [simpl|done].
  destruct (Z.ltb_spec c 0) as [Hc|Hc]; [done|].
  rewrite list_lookup_imap. destruct (row !! Z.to_nat c) as [cell|]; [simpl|done].
  by rewrite !Z2Nat.id by lia.
Qed.

(** X17: in a reachable state of a component of side N the rendered
    board has one cell for each position of the N x N board and no
    other: the cell at row r, column c is shown occupied exactly when
    [grid[r][c]] is 'T', and a click on it asks for a placement at
    anchor (r, c), which lies on the board. *)
Theorem rendered_board :
  forall size cells s r c,
    0 <= size -> Game.reachable size cells s ->
    match View.cellViewAt (View.renderBoard (Game.grid s)) r c with
    | Some v =>
        onBoard size (r, c)
        /\ View.onClick v = (r, c)
        /\ (View.isOccupied v = true <-> cellAt (Game.grid s) r c = Some T)
    | None => ~ onBoard size (r, c)
    end.
Proof.
  intros size cells s r c Hsize Hreach.
  destruct (GameInv.reachable_boardsInv _ _ _ Hsize Hreach) as [Hwf _].
  rewrite cellViewAt_renderBoard.
  destruct (cellAt (Game.grid s) r c) as [cell|] eqn:Hcell.
  - split; [|split; [done|]].
    + unfold cellAt in Hcell.
      destruct (index (Game.grid s) r) as [row|] eqn:Hrow; [|done].
      pose proof (wfGrid_row _ _ _ _ Hwf Hrow) as Hlen.
      apply index_Some in Hrow, Hcell. destruct Hwf as [Hg _].
      unfold onBoard. simpl. lia.
    + simpl. rewrite bool_decide_eq_true. split; congruence.
  - intros [Hr Hc]. simpl in Hr, Hc.
    destruct (wfGrid_cellAt size (Game.grid s) r c Hwf Hr Hc) as [x Hx].
    congruence.
Qed.

Lemma rendered_board_witness :
  0 <= 8
  /\ Game.reachable 8 App.getTetrominoCells afterFirstPlace
  /\ View.cellViewAt (View.renderBoard (Game.grid afterFirstPlace)) 1 1
     = Some {| View.isOccupied := true; View.onClick := (1, 1) |}
  /\ onBoard 8 (1, 1)
  /\ cellAt (Game.grid afterFirstPlace) 1 1 = Some T
  /\ View.cellViewAt (View.renderBoard (Game.grid afterFirstPlace)) 8 0 = None
  /\ ~ onBoard 8 (8, 0).
Proof.
  assert (H8 : 0 <= 8) by lia.
  pose proof (rendered_board 8 App.getTetrominoCells afterFirstPlace 1 1 H8
                afterFirstPlace_reachable) as H11.
  pose proof (rendered_board 8 App.getTetrominoCells afterFirstPlace 8 0 H8
                afterFirstPlace_reachable) as H80.
  split; [exact H8|]. split; [exact afterFirstPlace_reachable|].
  split; [reflexivity|]. split; [exact (proj1 H11)|].
  split; [exact (proj1 (proj2 (proj2 H11)) eq_refl)|].
  split; [reflexivity|exact H80].
Defined.

(** ** The password gate *)

Lemma Gate_reachable_inv s :
  Gate.reachable s ->
  (Gate.isUnlocked s = true <-> is_Some (Gate.puzzle6 s))
  /\ (Gate.isUnlocked s = true ->
      Gate.password s = "1618"%string /\ Gate.error s = EmptyString)
  /\ (Gate.error s = EmptyString \/ Gate.error s = "Incorrect password"%string)
  /\ Game.reachable 8 PuzzleGame.getTetrominoCells (Gate.puzzle8 s)
  /\ (forall g, Gate.puzzle6 s = Some g ->
        Game.reachable 6 PuzzleGame.getTetrominoCells g).
Proof.
  induction 1 as [|s ev s' _ (Ha & Hb & Hc & Hd & He) Hstep].
  - simpl. split; [split; [done|by intros [? ?]]|].
    split; [done|]. split; [by left|]. split; [apply Game.reach_init|done].
  - destruct ev as [value| |op|op]; simpl in Hstep.
    + destruct (Gate.isUnlocked s) eqn:Hlock; [done|].
      injection Hstep as <-. cbn. rewrite Hlock. done.
    + destruct (Gate.isUnlocked s) eqn:Hlock; [done|].
      injection Hstep as <-. unfold Gate.handlePasswordSubmit. rewrite Hlock.
      destruct (String.eqb_spec (Gate.password s) "1618") as [Hpw|Hpw]; cbn.
      * split; [split; [eauto|done]|]. split; [done|]. split; [by left|].
        split; [done|]. intros g [= <-]. apply Game.reach_init.
      * split; [done|]. split; [done|]. split; [by right|]. done.
    + destruct (Game.step 8 _ (Gate.puzzle8 s) op) as [g|] eqn:Hg; [|done].
      injection Hstep as <-. simpl. split; [done|]. split; [done|].
      split; [done|]. split; [|done].
      by apply (Game.reach_step 8 _ (Gate.puzzle8 s) op).
    + destruct (Gate.isUnlocked s) eqn:Hlock; [|done].
      destruct (Gate.puzzle6 s) as [g6|] eqn:H6; [|done].
      destruct (Game.step 6 _ g6 op) as [g|] eqn:Hg; [|done].
      injection Hstep as <-. cbn.
      split; [split; [eauto|done]|]. split; [done|]. split; [done|].
      split; [done|]. intros g' [= <-].
      apply (Game.reach_step 6 _ g6 op); [by apply He|done].
Qed.

(** X18: in every reachable state of [App] of [src/unnamed/part_000]
    the 6x6 puzzle is mounted exactly when [isUnlocked] is true, and
    then the password held is "1618" and no error is set; the error is
    either empty or "Incorrect password"; the 8x8 puzzle, and the 6x6
    puzzle once mounted, are in reachable states of their own. *)
Theorem gate_invariant :
  forall s,
    Gate.reachable s ->
    (Gate.isUnlocked s = true <-> is_Some (Gate.puzzle6 s))
    /\ (Gate.isUnlocked s = true ->
        Gate.password s = "1618"%string /\ Gate.error s = EmptyString)
    /\ (Gate.error s = EmptyString \/ Gate.error s = "Incorrect password"%string)
    /\ Game.reachable 8 PuzzleGame.getTetrominoCells (Gate.puzzle8 s)
    /\ (forall g, Gate.puzzle6 s = Some g ->
          Game.reachable 6 PuzzleGame.getTetrominoCells g).
Proof. exact Gate_reachable_inv. Qed.

Lemma unlocked_reachable :
  Gate.reachable (Gate.handlePasswordSubmit (Gate.onChange Gate.init "1618")).
Proof.
  apply (Gate.reach_step (Gate.onChange Gate.init "1618") Gate.Submit);
    [|reflexivity].
  apply (Gate.reach_step Gate.init (Gate.Change "1618"));
    [apply Gate.reach_init|reflexivity].
Defined.

Lemma gate_invariant_witness :
  Gate.reachable (Gate.handlePasswordSubmit (Gate.onChange Gate.init "1618"))
  /\ Gate.isUnlocked (Gate.handlePasswordSubmit (Gate.onChange Gate.init "1618"))
     = true
  /\ is_Some (Gate.puzzle6
                (Gate.handlePasswordSubmit (Gate.onChange Gate.init "1618")))
  /\ Gate.password (Gate.handlePasswordSubmit (Gate.onChange Gate.init "1618"))
     = "1618"%string
  /\ Gate.error (Gate.handlePasswordSubmit (Gate.onChange Gate.init "1618"))
     = EmptyString
  /\ Game.reachable 6 PuzzleGame.getTetrominoCells (Game.init 6).
Proof.
  destruct (gate_invariant _ unlocked_reachable) as (Ha & Hb & _ & _ & He).
  split; [exact unlocked_reachable|]. split; [reflexivity|].
  split; [exact (proj1 Ha eq_refl)|].
  split; [exact (proj1 (Hb eq_refl))|]. split; [exact (proj2 (Hb eq_refl))|].
  exact (He (Game.init 6) eq_refl).
Defined.

(** X19: in a reachable state of [App] of [src/unnamed/part_000] every
    event of a rendered control yields a state.  Once unlocked the
    component stays unlocked; it becomes unlocked only by Unlock pressed
    while the password held is "1618"; Unlock pressed with any other
    password keeps it locked and shows "Incorrect password". *)
Theorem gate_transitions :
  forall s ev r,
    Gate.reachable s -> Gate.step s ev = Some r ->
    exists s',
      r = Ok s'
      /\ (Gate.isUnlocked s = true -> Gate.isUnlocked s' = true)
      /\ (Gate.isUnlocked s = false -> Gate.isUnlocked s' = true ->
          ev = Gate.Submit /\ Gate.password s = "1618"%string)
      /\ (ev = Gate.Submit -> Gate.password s <> "1618"%string ->
          Gate.isUnlocked s' = false
          /\ Gate.errorShown s' = Some "Incorrect password"%string).
Proof.
  intros s ev r Hreach Hstep.
  destruct (Gate_reachable_inv s Hreach) as (_ & _ & _ & H8 & H6).
  destruct ev as [value| |op|op]; simpl in Hstep.
  - destruct (Gate.isUnlocked s) eqn:Hlock; [done|].
    injection Hstep as <-. eexists. split; [done|]. cbn. rewrite Hlock. done.
  - destruct (Gate.isUnlocked s) eqn:Hlock; [done|].
    injection Hstep as <-. eexists. split; [done|].
    unfold Gate.handlePasswordSubmit, Gate.errorShown.
    destruct (String.eqb_spec (Gate.password s) "1618") as [Hpw|Hpw]; cbn.
    + done.
    + rewrite Hlock. done.
  - destruct (GameInv.step_total 8 PuzzleGame.getTetrominoCells (Gate.puzzle8 s) op)
      as [g Hg]; [lia|done|].
    rewrite Hg in Hstep. injection Hstep as <-. eexists. split; [done|].
    cbn. split; [done|]. split; [congruence|done].
  - destruct (Gate.isUnlocked s) eqn:Hlock; [|done].
    destruct (Gate.puzzle6 s) as [g6|] eqn:Hg6; [|done].
    destruct (GameInv.step_total 6 PuzzleGame.getTetrominoCells g6 op)
      as [g Hg]; [lia|by apply H6|].
    rewrite Hg in Hstep. injection Hstep as <-. eexists. split; [done|].
    cbn. done.
Qed.

Lemma gate_transitions_witness :
  Gate.reachable (Gate.onChange Gate.init "1234")
  /\ Gate.step (Gate.onChange Gate.init "1234") Gate.Submit
     = Some (Ok (Gate.handlePasswordSubmit (Gate.onChange Gate.init "1234")))
  /\ Gate.password (Gate.onChange Gate.init "1234") <> "1618"%string
  /\ exists s',
      Ok (Gate.handlePasswordSubmit (Gate.onChange Gate.init "1234")) = Ok s'
      /\ Gate.isUnlocked s' = false
      /\ Gate.errorShown s' = Some "Incorrect password"%string.
Proof.
  assert (Hreach : Gate.reachable (Gate.onChange Gate.init "1234")).
  { apply (Gate.reach_step Gate.init (Gate.Change "1234"));
      [apply Gate.reach_init|reflexivity]. }
  assert (Hpw : Gate.password (Gate.onChange Gate.init "1234") <> "1618"%string)
    by discriminate.
  split; [exact Hreach|]. split; [reflexivity|]. split; [exact Hpw|].
  destruct (gate_transitions (Gate.onChange Gate.init "1234") Gate.Submit _
              Hreach eq_refl) as (s' & Hs' & _ & _ & Hwrong).
  exists s'. split; [exact Hs'|]. exact (Hwrong eq_refl Hpw).
Defined.

(** ** The same click twice *)

(** X20: on a square board, after an accepted placement a second click
    on the same cell is rejected and changes nothing, whatever rotation
    is chosen in between. *)
Theorem same_click_twice_rejected :
  forall size cells s row col s' rotation,
    fromSource cells ->
    wfGrid size (Game.grid s) ->
    result (Game.isValidPlacement size cells (Game.grid s) row col
              (Game.currentRotation s)) = Ok true ->
    Game.placeTetromino size cells s row col = Ok s' ->
    Game.placeTetromino size cells (Game.rotateShape s' rotation) row col
    = Ok (Game.rotateShape s' rotation).
Proof.
  intros size cells s row col s' rotation Hsrc Hwf Hacc Hplace.
  destruct (Game_accepted_frame size cells s row col Hwf Hacc)
    as (s'' & Hplace' & Hwf' & _ & Hset & _).
  rewrite Hplace in Hplace'. injection Hplace' as <-.
  pose proof (Hset (row, col)
                (anchor_in_shape cells row col _ Hsrc)) as Hocc.
  simpl in Hocc.
  apply Game_place_rejected. simpl.
  destruct (Game_isValidPlacement_spec size cells (Game.grid s') row col
              rotation Hwf') as (b & Hb & Hiff).
  destruct b; [|done]. exfalso.
  pose proof (proj1 Hiff eq_refl) as Hfits.
  pose proof (proj1 (Forall_forall _ _) Hfits _
                (anchor_in_shape cells row col rotation Hsrc))
    as (_ & _ & Hempty).
  simpl in Hempty. congruence.
Qed.

Lemma same_click_twice_rejected_witness :
  fromSource App.getTetrominoCells
  /\ wfGrid 8 (Game.grid (Game.init 8))
  /\ result (Game.isValidPlacement 8 App.getTetrominoCells
               (Game.grid (Game.init 8)) 0 1
               (Game.currentRotation (Game.init 8))) = Ok true
  /\ Game.placeTetromino 8 App.getTetrominoCells (Game.init 8) 0 1
     = Ok afterFirstPlace
  /\ Game.placeTetromino 8 App.getTetrominoCells
       (Game.rotateShape afterFirstPlace R180) 0 1
     = Ok (Game.rotateShape afterFirstPlace R180).
Proof.
  assert (Hsrc : fromSource App.getTetrominoCells) by (left; reflexivity).
  assert (Hwf : wfGrid 8 (Game.grid (Game.init 8)))
    by (apply wfGrid_emptyGrid; lia).
  split; [exact Hsrc|]. split; [exact Hwf|]. split; [reflexivity|].
  split; [reflexivity|].
  apply (same_click_twice_rejected 8 App.getTetrominoCells (Game.init 8) 0 1
           afterFirstPlace R180 Hsrc Hwf eq_refl eq_refl).
Defined.
